(** * Galaxy redshift by cross-correlation: filter design and peak estimation

    A shallow embedding of the arithmetic cells of
    [notebooks/redshift_crosscorr/redshift_with_crosscorr.ipynb]:
    the weight filter that builds the observed spectrum, continuum
    subtraction, the windowed-sinc smoothing cell, the discrete
    correlation maximum and its parabolic refinement.

    Conventions of the embedding.
    - Python [int]s and numpy [int64] indices are [Z].
    - The float literals that drive integer control flow ([b], [fc]) are
      exact rationals [Q]; [0.49] is [49/100].  Rounding and overflow of
      the division [4 / b] are not modelled; at the operating point the
      binary64 quotient is checked against the exact one.
    - Array contents (flux, wavelength, lag, correlation, filter taps) are
      real numbers [R]: binary64 rounding, infinities and NaN inside arrays
      are not modelled.  The one NaN the notebook can produce without a
      NaN input, the mean of an empty root array, is kept as [NaN].
    - A raised exception is a [Raise e] result; cells that run one after
      the other are chained with [let*]. *)

From Stdlib Require Import Floats.
From Stdlib Require Import Reals Psatz Lia List ZArith QArith Qround Qreals.
From Stdlib Require Import Epsilon Sorted.
Import ListNotations.

(** ** Exceptions and results *)

(** The first four are raised by Python, numpy or specutils on the paths
    modelled here.  The last two are error kinds named by the design
    document; they are part of the type so that statements about them can
    be written. *)
Inductive exn : Set :=
| ValueError
| TypeError
| IndexError
| ZeroDivisionError
| DegenerateFitError
| PeakAtBoundaryError.

Inductive result (A : Type) : Type :=
| Ok (a : A)
| Raise (e : exn).

Arguments Ok {A} a.
Arguments Raise {A} e.

Definition bind {A B : Type} (r : result A) (k : A -> result B) : result B :=
  match r with
  | Ok a => k a
  | Raise e => Raise e
  end.

Notation "'let*' x ':=' r 'in' k" := (bind r (fun x => k))
  (at level 10, x name, r at level 100, k at level 200).

(** ** Python sequence slicing *)

Module py.

(** [PySlice_AdjustIndices] for step 1: a negative bound is counted from the
    end, then clamped into [0, len]. *)
Definition adjust (len k : Z) : Z :=
  if (k <? 0)%Z then Z.max (k + len) 0 else Z.min k len.

(** [l[start:stop]] *)
Definition slice {A : Type} (l : list A) (start stop : Z) : list A :=
  let len := Z.of_nat (length l) in
  let s := adjust len start in
  let e := adjust len stop in
  firstn (Z.to_nat (e - s)) (skipn (Z.to_nat s) l).

End py.

(** ** The numpy functions the notebook calls *)

(** Complex numbers, for the eigenvalues returned by [np.roots]. *)
Definition C : Type := (R * R)%type.

Definition Cadd (u v : C) : C := (fst u + fst v, snd u + snd v)%R.
Definition Cdivr (u : C) (d : R) : C := (fst u / d, snd u / d)%R.
Definition RtoC (x : R) : C := (x, 0%R).

(** A scalar result: a complex number, or the NaN that [np.mean] gives for
    an empty array. *)
Inductive scalar : Type :=
| NaN
| Num (v : C).

(** Coefficients of a degree-2 fit, highest power first as numpy stores
    them: [(a, b, c)] is [a*x^2 + b*x + c]. *)
Definition poly2 : Type := (R * R * R)%type.

Module np.

Open Scope R_scope.

(** [np.arange(N)] for an integer [N] *)
Definition arange (N : Z) : list Z := map Z.of_nat (seq 0 (Z.to_nat N)).

(** [np.sum] *)
Definition sum (l : list R) : R := fold_right Rplus 0 l.

(** [np.sinc]: the normalized sinc, [sin(pi x)/(pi x)], 1 at 0. *)
Definition sinc (x : R) : R :=
  if Req_dec_T x 0 then 1 else sin (PI * x) / (PI * x).

(** [np.amax]: a reduction with no identity, so an empty array raises. *)
Definition amax (l : list R) : result R :=
  match l with
  | [] => Raise ValueError
  | x :: t => Ok (fold_left Rmax t x)
  end.

(** [np.where(l == m)[0]]: the indices at which the comparison holds, in
    ascending order; [i] is the index of the head of [l]. *)
Fixpoint where_eq_from (i : Z) (l : list R) (m : R) : list Z :=
  match l with
  | [] => []
  | x :: t =>
      if Req_dec_T x m then i :: where_eq_from (i + 1) t m
      else where_eq_from (i + 1) t m
  end.

Definition where_eq (l : list R) (m : R) : list Z := where_eq_from 0 l m.

(** Element [k] of [a], zero outside the array: the implicit zero padding
    of the convolution. *)
Definition padded (a : list R) (k : Z) : R :=
  if (k <? 0)%Z then 0 else nth (Z.to_nat k) a 0.

(** [_pyarray_correlate] in mode 1 ('same'), [n2 <= n1]: output [i] is the
    dot product of [w] with [a] shifted so that [w[n_left]] sits on [a[i]],
    [n_left = n2 / 2]; the output has the length of [a]. *)
Definition correlate_same (a w : list R) : list R :=
  let n_left := (Z.of_nat (length w) / 2)%Z in
  map (fun i : nat =>
         sum (map (fun j : nat =>
                     padded a (Z.of_nat i + Z.of_nat j - n_left) * nth j w 0)
                  (seq 0 (length w))))
      (seq 0 (length a)).

(** [np.convolve(a, v, mode='same')]: the longer array is taken as the
    signal, an empty argument raises, and the convolution is the
    correlation with the reversed kernel. *)
Definition convolve_same (a v : list R) : result (list R) :=
  let '(a, v) := if (length a <? length v)%nat then (v, a) else (a, v) in
  if (length a =? 0)%nat then Raise ValueError
  else if (length v =? 0)%nat then Raise ValueError
  else Ok (correlate_same a (rev v)).

(** [np.polyval(p, x)] for three coefficients (Horner). *)
Definition polyval (p : poly2) (x : R) : R :=
  let '(a, b, c) := p in (a * x + b) * x + c.

(** Sum of squared residuals of [p] on the points [(x, y)]. *)
Fixpoint sq_residual (p : poly2) (xs ys : list R) : R :=
  match xs, ys with
  | x :: xs', y :: ys' => (polyval p x - y) ^ 2 + sq_residual p xs' ys'
  | _, _ => 0
  end.

(** [np.polyfit] divides each Vandermonde column by its Euclidean norm
    before calling [lstsq] and divides the solution back; [scaled_norm2 xs p]
    is the squared norm of the solution of that scaled problem. *)
Definition scaled_norm2 (xs : list R) (p : poly2) : R :=
  let '(a, b, c) := p in
  a ^ 2 * sum (map (fun x => x ^ 4) xs)
  + b ^ 2 * sum (map (fun x => x ^ 2) xs)
  + c ^ 2 * INR (length xs).

(** The contract of [np.linalg.lstsq] as [np.polyfit] uses it: a minimiser
    of the squared residual, and among the minimisers one of least norm
    in the scaled problem. *)
Definition lstsq_solution (xs ys : list R) (p : poly2) : Prop :=
  (forall q, sq_residual p xs ys <= sq_residual q xs ys) /\
  (forall q, (forall r, sq_residual q xs ys <= sq_residual r xs ys) ->
             scaled_norm2 xs p <= scaled_norm2 xs q).

(** [np.polyfit(x, y, deg=2)]: argument checks, then the least-squares
    coefficients.  A rank-deficient system only warns ([RankWarning]).
    When every abscissa is 0 the binary64 code scales a zero column by its
    zero norm; that case is not told apart here. *)
Definition polyfit (xs ys : list R) : result poly2 :=
  match xs with
  | [] => Raise TypeError
  | _ :: _ =>
      if (length xs =? length ys)%nat
      then Ok (epsilon (inhabits (0, 0, 0)) (lstsq_solution xs ys))
      else Raise TypeError
  end.

(** Eigenvalues of the companion matrix [[t, -d], [1, 0]], the roots of
    [x^2 - t*x + d]: real when the discriminant is non-negative, a
    conjugate pair otherwise. *)
Definition companion_eigvals (t d : R) : list C :=
  let disc := t ^ 2 - 4 * d in
  if Rle_dec 0 disc
  then [RtoC ((t + sqrt disc) / 2); RtoC ((t - sqrt disc) / 2)]
  else [(t / 2, sqrt (- disc) / 2); (t / 2, - (sqrt (- disc) / 2))].

(** [np.roots(p)] for the three coefficients of a degree-2 fit.  numpy
    strips leading zero coefficients, strips trailing zeros and gives one
    root 0 for each, and takes the eigenvalues of the companion matrix of
    what is left. *)
Definition roots (p : poly2) : list C :=
  let '(a, b, c) := p in
  if Req_dec_T a 0 then
    if Req_dec_T b 0 then []
    else if Req_dec_T c 0 then [RtoC 0]
    else [RtoC (- c / b)]
  else
    if Req_dec_T c 0 then
      if Req_dec_T b 0 then [RtoC 0; RtoC 0]
      else [RtoC (- b / a); RtoC 0]
    else companion_eigvals (- b / a) (c / a).

(** [np.mean]: NaN (and a warning) for an empty array. *)
Definition mean (l : list C) : scalar :=
  match l with
  | [] => NaN
  | _ :: _ => Num (Cdivr (fold_right Cadd (RtoC 0) l) (INR (length l)))
  end.

End np.

(** ** The spectrum container *)

Record Spectrum : Type := mkSpectrum {
  wavelength : list R;
  flux : list R;
  uncertainty : option (list R)
}.

(** [Spectrum1D(spectral_axis=..., flux=..., uncertainty=...)]: the
    constructor rejects a flux whose length differs from that of the
    spectral axis or of the uncertainty array. *)
Definition Spectrum1D (spectral_axis flux : list R)
  (uncertainty : option (list R)) : result Spectrum :=
  if negb (length spectral_axis =? length flux)%nat then Raise ValueError
  else match uncertainty with
       | Some u =>
           if negb (length u =? length flux)%nat then Raise ValueError
           else Ok (mkSpectrum spectral_axis flux uncertainty)
       | None => Ok (mkSpectrum spectral_axis flux uncertainty)
       end.

(** ** Cell "Smooth observation" *)

Module Smooth.

(** [fc = 0.05], [b = 0.49]: the values both runs of the notebook use. *)
Definition fc : Q := 0.05%Q.
Definition b : Q := 0.49%Q.

(** The binary64 number that the literal [0.49] denotes. *)
Definition b_binary64 : float := 0x1.f5c28f5c28f5cp-2%float.

(** [N = int(np.ceil(4 / b)); if not N % 2: N += 1].  [4 / b] is a Python
    float division and raises for [b = 0]. *)
Definition N (b : Q) : result Z :=
  if Qeq_bool b 0 then Raise ZeroDivisionError
  else
    let N := Qceiling (4 / b) in
    Ok (if (N mod 2 =? 0)%Z then N + 1 else N)%Z.

Open Scope R_scope.

(** [np.sinc(2 * fc * (n - (N - 1) / 2))] at tap [n] *)
Definition sinc_tap (fc : Q) (N n : Z) : R :=
  np.sinc (2 * Q2R fc * (IZR n - (IZR N - 1) / 2)).

(** The Blackman window at tap [n] *)
Definition w (N n : Z) : R :=
  0.42 - 0.5 * cos (2 * PI * IZR n / (IZR N - 1))
  + 0.08 * cos (4 * PI * IZR n / (IZR N - 1)).

(** [filt *= w] *)
Definition windowed (fc : Q) (N : Z) : list R :=
  map (fun n => sinc_tap fc N n * w N n) (np.arange N).

(** [filt /= np.sum(filt)] *)
Definition filt (fc : Q) (N : Z) : list R :=
  let f := windowed fc N in
  map (fun x => x / np.sum f) f.

(** [sflux = np.convolve(p_obs.flux, filt, mode='same')] *)
Definition sflux (p_obs : Spectrum) (fc b : Q) : result (list R) :=
  let* N := N b in
  np.convolve_same (flux p_obs) (filt fc N).

(** The rebuilt [p_obs]: filtered flux on the wavelength and uncertainty
    of the input. *)
Definition p_obs (p_obs : Spectrum) (fc b : Q) : result Spectrum :=
  let* sflux := sflux p_obs fc b in
  Spectrum1D (wavelength p_obs) sflux (uncertainty p_obs).

End Smooth.

(** ** Cells "Read observation and template" *)

Module Obs.

Open Scope R_scope.

(** A row of the [dataspec] table *)
Record row : Type := mkRow {
  col_wavelength : R;
  col_flux : R;
  col_weight : R;
  col_uncertainty : R
}.

(** [wave = np.arange(flux.shape[0]) * CD1_1 + CRVAL1] *)
Definition wave (flux : list R) (cd1_1 crval1 : R) : list R :=
  map (fun i => IZR i * cd1_1 + crval1) (np.arange (Z.of_nat (length flux))).

(** [unc = 1. / np.sqrt(wht)] *)
Definition unc (wht : list R) : list R := map (fun x => 1 / sqrt x) wht.

Fixpoint rows (wave flux wht unc : list R) : list row :=
  match wave, flux, wht, unc with
  | x :: wave', f :: flux', g :: wht', u :: unc' =>
      mkRow x f g u :: rows wave' flux' wht' unc'
  | _, _, _, _ => []
  end.

(** [dataspec = QTable([wave, flux, wht, unc], names=...)]: the columns
    must have one length.  [wave] has the length of [flux] and [unc] that
    of [wht]. *)
Definition dataspec (flux wht : list R) (cd1_1 crval1 : R)
  : result (list row) :=
  if negb (length flux =? length wht)%nat then Raise ValueError
  else Ok (rows (wave flux cd1_1 crval1) flux wht (unc wht)).

(** [dataspec_sub = dataspec[dataspec['weight'] > 0.]] *)
Definition dataspec_sub (dataspec : list row) : list row :=
  filter (fun r => if Rlt_dec 0 (col_weight r) then true else false) dataspec.

(** [obs = Spectrum1D(spectral_axis=dataspec_sub['wavelength'],
    flux=dataspec_sub['flux'],
    uncertainty=StdDevUncertainty(dataspec_sub['uncertainty']))] *)
Definition obs (flux wht : list R) (cd1_1 crval1 : R) : result Spectrum :=
  let* t := dataspec flux wht cd1_1 crval1 in
  let sub := dataspec_sub t in
  Spectrum1D (map col_wavelength sub) (map col_flux sub)
             (Some (map col_uncertainty sub)).

(** [template_z = Spectrum1D(spectral_axis=template.wavelength * (1.+z),
    flux=template.flux)] *)
Definition template_z (template : Spectrum) (z : R) : result Spectrum :=
  Spectrum1D (map (fun x => x * (1 + z)) (wavelength template))
             (flux template) None.

End Obs.

(** ** Cell "Subtract continuum" *)

Module Continuum.

Open Scope R_scope.

(** [p_obs = obs - continuum_model(obs.wavelength)].  The fitted model is a
    function of wavelength; which function the fitter returns is left
    open.  The difference is taken sample by sample and the uncertainty of
    the left operand is kept. *)
Definition p_obs (obs : Spectrum) (continuum_model : R -> R) : Spectrum :=
  mkSpectrum (wavelength obs)
             (map (fun fx => fst fx - continuum_model (snd fx))
                  (combine (flux obs) (wavelength obs)))
             (uncertainty obs).

End Continuum.

(** ** Cells "Cross correlate" (peak) and "Fit correlation peak" *)

Module Peak.

Open Scope R_scope.

(** [const.c.to('km/s')] *)
Definition c_km_s : R := 299792.458.

(** [index_peak = np.where(corr == np.amax(corr))[0][0]] *)
Definition index_peak (corr : list R) : result Z :=
  let* m := np.amax corr in
  match np.where_eq corr m with
  | [] => Raise IndexError
  | i :: _ => Ok i
  end.

(** [n = 8]: points to the left or right of the correlation maximum *)
Definition n : Z := 8.

(** [peak_lags = lag[index_peak-n:index_peak+n+1].value] *)
Definition peak_lags (lag : list R) (index_peak : Z) : list R :=
  py.slice lag (index_peak - n) (index_peak + n + 1).

(** [peak_vals = corr[index_peak-n:index_peak+n+1].value] *)
Definition peak_vals (corr : list R) (index_peak : Z) : list R :=
  py.slice corr (index_peak - n) (index_peak + n + 1).

(** [p = np.polyfit(peak_lags, peak_vals, deg=2)] *)
Definition p (lag corr : list R) (index_peak : Z) : result poly2 :=
  np.polyfit (peak_lags lag index_peak) (peak_vals corr index_peak).

(** [roots = np.roots(p); v_fit = np.mean(roots) * u.km/u.s] *)
Definition v_fit (lag corr : list R) (index_peak : Z) : result scalar :=
  let* p := p lag corr index_peak in
  Ok (np.mean (np.roots p)).

(** [z = v_fit / const.c.to('km/s')] *)
Definition z (lag corr : list R) (index_peak : Z) : result scalar :=
  let* v := v_fit lag corr index_peak in
  Ok (match v with
      | NaN => NaN
      | Num u => Num (Cdivr u c_km_s)
      end).

(** The two cells in sequence: the discrete maximum, then the fit around
    it. *)
Definition fit_at_maximum (lag corr : list R) : result scalar :=
  let* i := index_peak corr in
  v_fit lag corr i.

End Peak.

(** ** Predicates used by the statements *)

Open Scope R_scope.


(** The data-model invariant of a spectrum: one length for the three
    arrays, wavelengths strictly ascending (hence without duplicates). *)
Definition spectrum_invariant (s : Spectrum) : Prop :=
  length (wavelength s) = length (flux s) /\
  (forall u, uncertainty s = Some u -> length u = length (flux s)) /\
  StronglySorted Rlt (wavelength s).

(** [xs] holds three pairwise different abscissae. *)
Definition three_distinct (xs : list R) : Prop :=
  exists x1 x2 x3,
    In x1 xs /\ In x2 xs /\ In x3 xs /\ x1 <> x2 /\ x1 <> x3 /\ x2 <> x3.

(** The values [ys] are the polynomial [q] sampled at [xs]. *)
Definition sampled (q : poly2) (xs ys : list R) : Prop :=
  Forall2 (fun x y => y = np.polyval q x) xs ys.

(** ** Python sequence indexing *)

(** [l[i]] for an integer [i]: a negative index counts from the end, an
    index outside the sequence raises [IndexError]. *)
Definition getitem {A : Type} (l : list A) (i : Z) : result A :=
  let len := Z.of_nat (length l) in
  let k := if (i <? 0)%Z then (i + len)%Z else i in
  if ((k <? 0) || (len <=? k))%Z then Raise IndexError
  else match nth_error l (Z.to_nat k) with
       | Some x => Ok x
       | None => Raise IndexError
       end.

(** ** Cell "Redshift based on maximum" *)

Module Maximum.

Open Scope R_scope.

(** [v = lag[index_peak]] *)
Definition v (lag corr : list R) : result R :=
  let* i := Peak.index_peak corr in
  getitem lag i.

(** [z = v / const.c.to('km/s')] *)
Definition z (lag corr : list R) : result R :=
  let* v := v lag corr in
  Ok (v / Peak.c_km_s).

End Maximum.

(** ** Cell "Template" *)

Module Template.

Open Scope R_scope.

(** [factor = 2.E-5 * obs.flux.unit] *)
Definition factor : R := 2e-5.

(** [template = Spectrum1D(spectral_axis=template['col1']*u.AA,
    flux=template['col2']*factor)] *)
Definition template (col1 col2 : list R) : result Spectrum :=
  Spectrum1D col1 (map (fun f => f * factor) col2) None.

End Template.

(** ** Further predicates and test signals *)

Open Scope R_scope.

(** [i] is the first index at which [corr] takes its largest value. *)
Definition first_maximum (corr : list R) (i : Z) : Prop :=
  (0 <= i < Z.of_nat (length corr))%Z /\
  (forall j, (j < length corr)%nat ->
             nth j corr 0 <= nth (Z.to_nat i) corr 0) /\
  (forall j, (j < length corr)%nat ->
             nth j corr 0 = nth (Z.to_nat i) corr 0 -> (i <= Z.of_nat j)%Z).

(** [alpha * a1 + beta * a2], sample by sample *)
Definition superpose (alpha beta : R) (a1 a2 : list R) : list R :=
  map (fun p => alpha * fst p + beta * snd p) (combine a1 a2).

(** A unit spike at index [k], followed by [r] zeros. *)
Definition impulse (k r : nat) : list R := repeat 0 k ++ 1 :: repeat 0 r.

(** ** Auxiliary functions of the unity-gain proof *)

(** The Blackman window as a function of the angle from the centre tap:
    tap [M + k] of a window of [2M + 1] taps is [blackman (PI * k / M)]. *)
Definition blackman (u : R) : R := 0.42 + 0.5 * cos u + 0.08 * cos (2 * u).

(** [sin x + sin (2x) / 2 + ... + sin (n x) / n] *)
Fixpoint fejer_sum (n : nat) (x : R) : R :=
  match n with
  | O => 0
  | S m => fejer_sum m x + sin (INR (S m) * x) / INR (S m)
  end.

(** Its derivative, [cos x + cos (2x) + ... + cos (n x)] *)
Fixpoint cosine_sum (n : nat) (x : R) : R :=
  match n with
  | O => 0
  | S m => cosine_sum m x + cos (INR (S m) * x)
  end.

(** ** Sample arrays *)

Module Samples.

Open Scope R_scope.

(** Seventeen integer lags and the parabola [-x^2 + 16x + 36] on them: a
    full refinement window centred on its maximum at index 8. *)
Definition lag17 : list R :=
  [0; 1; 2; 3; 4; 5; 6; 7; 8; 9; 10; 11; 12; 13; 14; 15; 16].

Definition parabola17 : list R :=
  [36; 51; 64; 75; 84; 91; 96; 99; 100; 99; 96; 91; 84; 75; 64; 51; 36].

(** Nine lags and the convex parabola [x^2 + 1] on them; the largest
    value is the last one. *)
Definition lag9 : list R := [0; 1; 2; 3; 4; 5; 6; 7; 8].

Definition convex9 : list R := [1; 2; 5; 10; 17; 26; 37; 50; 65].

(** Seventeen correlation values whose maximum is the first one. *)
Definition spike17 : list R :=
  [1; 0; 0; 0; 0; 0; 0; 0; 0; 0; 0; 0; 0; 0; 0; 0; 0].

(** A spectrum of a single sample. *)
Definition one_sample : Spectrum := mkSpectrum [5000] [1] (Some [1]).

(** The spectrum built from the flux [1; 2; 3] with weights [1; 0; 4] on
    the grid [3000 + 0.5 i]: the middle row is dropped. *)
Definition obs3 : Spectrum :=
  mkSpectrum [0 * 0.5 + 3000; 2 * 0.5 + 3000] [1; 3]
             (Some [1 / sqrt 1; 1 / sqrt 4]).

(** Two samples on an ascending wavelength axis, no uncertainty. *)
Definition two_samples : Spectrum := mkSpectrum [1; 2] [1; 1] None.

(** The straight line [2x + 1] on the seventeen lags. *)
Definition line17 : list R :=
  [1; 3; 5; 7; 9; 11; 13; 15; 17; 19; 21; 23; 25; 27; 29; 31; 33].

End Samples.

(** * Properties *)

(** ** Checks on literal inputs *)

Example slice_negative_start :
  py.slice [10; 20; 30; 40; 50]%Z (-2) 5 = [40; 50]%Z.
Proof. reflexivity. Qed.

Example slice_clamps_both_ends :
  py.slice [10; 20; 30]%Z (-7) 10 = [10; 20; 30]%Z.
Proof. reflexivity. Qed.

Example slice_wrapped_start_after_stop :
  py.slice [10; 20; 30; 40; 50]%Z (-1) 2 = [].
Proof. reflexivity. Qed.

(** The example of the numpy manual:
    [np.convolve([1,2,3],[0,1,0.5], 'same')] is [[1., 2.5, 4.]]. *)
Example convolve_same_manual :
  np.convolve_same [1; 2; 3] [0; 1; 0.5] = Ok [1; 2.5; 4].
Proof.
  unfold np.convolve_same, np.correlate_same, np.padded, np.sum. simpl.
  repeat f_equal; lra.
Qed.

(** An even kernel: [np.convolve([1,2,3],[1,1], 'same')] is [[1, 3, 5]]. *)
Example convolve_same_even_kernel :
  np.convolve_same [1; 2; 3] [1; 1] = Ok [1; 3; 5].
Proof.
  unfold np.convolve_same, np.correlate_same, np.padded, np.sum. simpl.
  repeat f_equal; lra.
Qed.

(** [np.roots([1, 0, 1])] is the pair [i], [-i]; [np.roots([1, -3, 2])]
    is [2], [1]. *)
Example roots_conjugate_pair : np.roots (1, 0, 1) = [(0, 1); (0, -1)].
Proof.
  unfold np.roots, np.companion_eigvals.
  destruct (Req_dec_T 1 0) as [E|_]; [lra|].
  destruct (Rle_dec 0 ((- 0 / 1) ^ 2 - 4 * (1 / 1))) as [H|_]; [lra|].
  replace (- ((- 0 / 1) ^ 2 - 4 * (1 / 1))) with (2 * 2) by field.
  rewrite sqrt_square by lra.
  repeat f_equal; field.
Qed.

Example roots_real_pair : np.roots (1, -3, 2) = [RtoC 2; RtoC 1].
Proof.
  unfold np.roots, np.companion_eigvals.
  destruct (Req_dec_T 1 0) as [E|_]; [lra|].
  destruct (Req_dec_T 2 0) as [E|_]; [lra|].
  destruct (Rle_dec 0 ((- -3 / 1) ^ 2 - 4 * (2 / 1))) as [_|H]; [|lra].
  replace ((- -3 / 1) ^ 2 - 4 * (2 / 1)) with (1 * 1) by field.
  rewrite sqrt_square by lra.
  unfold RtoC. repeat f_equal; field.
Qed.

(** ** Kernel length *)

Lemma N_defined (b : Q) :
  ~ (b == 0)%Q ->
  Smooth.N b =
  Ok (if (Qceiling (4 / b) mod 2 =? 0)%Z
      then Qceiling (4 / b) + 1 else Qceiling (4 / b))%Z.
Proof.
  intros Hb. unfold Smooth.N.
  destruct (Qeq_bool b 0) eqn:E; [|reflexivity].
  apply Qeq_bool_iff in E. contradiction.
Qed.

Lemma ceiling_above_8 (b : Q) :
  (0 < b)%Q -> (b < 0.5)%Q -> (9 <= Qceiling (4 / b))%Z.
Proof.
  intros H0 H1.
  assert (H8 : (8 < 4 / b)%Q).
  { apply Qlt_shift_div_l; [exact H0|].
    lra. }
  pose proof (Qle_ceiling (4 / b)) as Hc.
  assert (Hlt : (inject_Z 8 < inject_Z (Qceiling (4 / b)))%Q).
  { eapply Qlt_le_trans; [exact H8 | exact Hc]. }
  rewrite <- Zlt_Qlt in Hlt. lia.
Qed.



(** C10. At the operating point [b = 0.49], which both runs of the
    notebook use, [ceil(4 / b)] is 9, 9 is odd so the increment is not
    applied, and the kernel length is 9.  The binary64 quotient [4 / 0.49]
    lies in (8, 9] as the exact one does, so rounding does not change the
    ceiling. *)
Theorem C10_kernel_length_at_operating_point :
  Qceiling (4 / Smooth.b) = 9%Z /\
  (9 mod 2 =? 0)%Z = false /\
  Smooth.N Smooth.b = Ok 9%Z /\
  (PrimFloat.ltb 8 (PrimFloat.div 4 Smooth.b_binary64)
   && PrimFloat.leb (PrimFloat.div 4 Smooth.b_binary64) 9)%bool = true.
Proof.
  split; [vm_compute; reflexivity|].
  split; [reflexivity|].
  split; [reflexivity|].
  vm_compute. reflexivity.
Qed.

(** ** Unity gain of the kernel *)

(** The normalised taps sum to 1 as soon as the divisor, the sum of the
    windowed taps, is not zero.  It is at least 1: the kernel is symmetric
    about a centre tap of value 1, and the two sides add up to a
    non-negative number because the window decreases away from the centre
    and the partial sums [sin x + ... + sin (n x) / n] are positive on
    (0, PI). *)

(** *** Sums over index ranges *)

Lemma sum_app (l1 l2 : list R) : np.sum (l1 ++ l2) = np.sum l1 + np.sum l2.
Proof. induction l1 as [|x l1 IH]; simpl; [ring | rewrite IH; ring]. Qed.

Lemma sum_map_ext {A : Type} (f g : A -> R) (l : list A) :
  (forall x, In x l -> f x = g x) -> np.sum (map f l) = np.sum (map g l).
Proof.
  induction l as [|x l IH]; intros H; simpl; [reflexivity|].
  rewrite (H x (or_introl eq_refl)), IH; [reflexivity|].
  intros y Hy. apply H. right. exact Hy.
Qed.

Lemma sum_map_scal {A : Type} (c : R) (f : A -> R) (l : list A) :
  np.sum (map (fun i => c * f i) l) = c * np.sum (map f l).
Proof. induction l as [|x l IH]; simpl; [ring | rewrite IH; ring]. Qed.

Lemma sum_map_div (s : R) (l : list R) :
  np.sum (map (fun x => x / s) l) = np.sum l / s.
Proof.
  induction l as [|x l IH]; simpl; [unfold Rdiv; ring|].
  rewrite IH. unfold Rdiv. ring.
Qed.

Lemma sum_seq_reversed (f : nat -> R) (n : nat) :
  np.sum (map (fun i => f (n - 1 - i)%nat) (seq 0 n))
  = np.sum (map f (seq 0 n)).
Proof.
  revert f. induction n as [|n IH]; intros f; [reflexivity|].
  transitivity (f n + np.sum (map (fun i => f (n - 1 - i)%nat) (seq 0 n))).
  - cbn [seq map np.sum fold_right].
    replace (S n - 1 - 0)%nat with n by lia. f_equal.
    rewrite <- seq_shift, map_map. apply sum_map_ext.
    intros x _. f_equal. lia.
  - rewrite IH, seq_S, map_app, sum_app. simpl. ring.
Qed.

(** *** Positivity of the sine sums *)

Lemma harmonic_derivative (k : nat) (x : R) :
  derivable_pt_lim (fun y => sin (INR (S k) * y) / INR (S k)) x
                   (cos (INR (S k) * x)).
Proof.
  assert (Hk : INR (S k) <> 0) by (apply not_0_INR; lia).
  pose proof (derivable_pt_lim_scal id (INR (S k)) x 1
                (derivable_pt_lim_id x)) as Hlin.
  pose proof (derivable_pt_lim_comp (mult_real_fct (INR (S k)) id) sin x _ _
                Hlin (derivable_pt_lim_sin _)) as Hcomp.
  pose proof (derivable_pt_lim_scal _ (/ INR (S k)) x _ Hcomp) as Hs.
  replace (cos (INR (S k) * x))
    with (/ INR (S k)
          * (cos (mult_real_fct (INR (S k)) id x) * (INR (S k) * 1))).
  - eapply derivable_pt_lim_ext; [|exact Hs].
    intros z. unfold mult_real_fct, comp, id. field. exact Hk.
  - unfold mult_real_fct, id. field. exact Hk.
Qed.

Lemma fejer_sum_derivative (n : nat) (x : R) :
  derivable_pt_lim (fejer_sum n) x (cosine_sum n x).
Proof.
  induction n as [|n IH].
  - simpl. apply (derivable_pt_lim_ext (fct_cte 0)); [reflexivity|].
    apply derivable_pt_lim_const.
  - cbn [cosine_sum].
    eapply derivable_pt_lim_ext;
      [|exact (derivable_pt_lim_plus _ _ x _ _ IH (harmonic_derivative n x))].
    intros z. reflexivity.
Qed.

Lemma fejer_sum_derivable (n : nat) (x : R) : derivable_pt (fejer_sum n) x.
Proof. exists (cosine_sum n x). apply fejer_sum_derivative. Qed.

Lemma fejer_sum_continuous (n : nat) (x : R) : continuity_pt (fejer_sum n) x.
Proof. apply derivable_continuous_pt, fejer_sum_derivable. Qed.

Lemma fejer_sum_at_0 (n : nat) : fejer_sum n 0 = 0.
Proof.
  induction n as [|n IH]; [reflexivity|].
  cbn [fejer_sum]. rewrite IH, Rmult_0_r, sin_0. unfold Rdiv. ring.
Qed.

Lemma fejer_sum_at_PI (n : nat) : fejer_sum n PI = 0.
Proof.
  induction n as [|n IH]; [reflexivity|].
  cbn [fejer_sum]. rewrite IH.
  rewrite (sin_eq_0_1 (INR (S n) * PI)).
  - unfold Rdiv. ring.
  - exists (Z.of_nat (S n)). rewrite INR_IZR_INZ. reflexivity.
Qed.

(** The closed form of the cosine sum (Dirichlet kernel). *)
Lemma dirichlet (n : nat) (x : R) :
  2 * sin (x / 2) * cosine_sum n x = sin ((INR n + / 2) * x) - sin (x / 2).
Proof.
  induction n as [|n IH].
  - simpl. replace ((0 + / 2) * x) with (x / 2) by field. ring.
  - cbn [cosine_sum]. rewrite Rmult_plus_distr_l, IH.
    rewrite S_INR.
    replace ((INR n + 1 + / 2) * x) with ((INR n + 1) * x + x / 2) by field.
    replace ((INR n + / 2) * x) with ((INR n + 1) * x - x / 2) by field.
    rewrite sin_plus, sin_minus. ring.
Qed.

Lemma sin_nonneg_at_critical_point (n : nat) (x : R) :
  0 < x < PI -> cosine_sum (S n) x = 0 -> 0 <= sin (INR (S n) * x).
Proof.
  intros Hx Hd.
  pose proof (dirichlet (S n) x) as H. rewrite Hd, Rmult_0_r in H.
  set (A := (INR (S n) + / 2) * x) in *.
  assert (Hs : 0 < sin (x / 2)) by (apply sin_gt_0; lra).
  assert (Hc : 0 < cos (x / 2)) by (apply cos_gt_0; lra).
  replace (INR (S n) * x) with (A - x / 2) by (unfold A; field).
  rewrite sin_minus.
  pose proof (sin2_cos2 A) as HA. pose proof (sin2_cos2 (x / 2)) as HB.
  unfold Rsqr in *.
  assert (HsA : sin A = sin (x / 2)) by lra. rewrite HsA in *.
  assert (Hcc : cos A * cos A = cos (x / 2) * cos (x / 2)) by lra.
  assert (Hle : cos A <= cos (x / 2)) by nra.
  nra.
Qed.

Lemma fejer_sum_positive_at_interior_minimum (n : nat) (x : R) :
  (forall y, 0 < y < PI -> 0 < fejer_sum n y) ->
  0 < x < PI ->
  (forall y, 0 < y -> y < PI -> fejer_sum (S n) x <= fejer_sum (S n) y) ->
  (1 <= n)%nat ->
  0 < fejer_sum (S n) x.
Proof.
  intros IH Hx Hmin Hn.
  pose proof (deriv_minimum (fejer_sum (S n)) 0 PI x
                (fejer_sum_derivable (S n) x) (proj1 Hx) (proj2 Hx) Hmin)
    as Hd.
  rewrite (derive_pt_eq_0 _ _ _ _ (fejer_sum_derivative (S n) x)) in Hd.
  pose proof (sin_nonneg_at_critical_point n x Hx Hd) as Hs.
  cbn [fejer_sum]. pose proof (IH x Hx) as Hp.
  assert (Hk : 0 < INR (S n)) by (apply lt_0_INR; lia).
  assert (0 <= sin (INR (S n) * x) / INR (S n)).
  { apply Rmult_le_pos; [exact Hs|]. left. apply Rinv_0_lt_compat. exact Hk. }
  lra.
Qed.

(** The Fejer-Jackson inequality: the sine sums are positive on (0, PI). *)
Lemma fejer_jackson (n : nat) (x : R) :
  (1 <= n)%nat -> 0 < x < PI -> 0 < fejer_sum n x.
Proof.
  intros Hn. revert x.
  induction n as [|n IH]; [lia|].
  destruct n as [|n].
  - intros x Hx. simpl. rewrite Rmult_1_l.
    pose proof (sin_gt_0 x (proj1 Hx) (proj2 Hx)). lra.
  - specialize (IH ltac:(lia)).
    intros x Hx.
    destruct (continuity_ab_min (fejer_sum (S (S n))) 0 PI
                ltac:(pose proof PI_RGT_0; lra)
                (fun c _ => fejer_sum_continuous _ c))
      as (mx & Hmin & Hmx).
    assert (Hint : forall y,
               0 < y < PI ->
               (forall c, 0 <= c <= PI ->
                          fejer_sum (S (S n)) y <= fejer_sum (S (S n)) c) ->
               0 < fejer_sum (S (S n)) y).
    { intros y Hy Hm.
      apply fejer_sum_positive_at_interior_minimum; auto; try lia.
      intros c Hc1 Hc2. apply Hm. lra. }
    destruct (Req_dec mx 0) as [E0|N0].
    { (* minimum value is 0 *)
      subst mx. rewrite fejer_sum_at_0 in Hmin.
      destruct (Rle_lt_or_eq_dec _ _ (Hmin x ltac:(lra))) as [H|H];
        [exact H|].
      apply Hint; [exact Hx|]. intros c Hc. rewrite <- H. apply Hmin, Hc. }
    destruct (Req_dec mx PI) as [EP|NP].
    { subst mx. rewrite fejer_sum_at_PI in Hmin.
      destruct (Rle_lt_or_eq_dec _ _ (Hmin x ltac:(lra))) as [H|H];
        [exact H|].
      apply Hint; [exact Hx|]. intros c Hc. rewrite <- H. apply Hmin, Hc. }
    assert (Hmx' : 0 < mx < PI) by lra.
    pose proof (Hint mx Hmx' Hmin) as Hpos.
    pose proof (Hmin x ltac:(lra)). lra.
Qed.

(** *** The window and the taps on either side of the centre *)

Lemma blackman_factored (u : R) :
  blackman u = 0.16 * (cos u + 1) * (cos u + 2.125).
Proof. unfold blackman. rewrite cos_2a_cos. lra. Qed.

Lemma blackman_nonneg (u : R) : 0 <= blackman u.
Proof.
  rewrite blackman_factored. pose proof (COS_bound u) as [H1 H2]. nra.
Qed.

Lemma blackman_decreasing (u v : R) :
  0 <= u -> u <= v -> v <= PI -> blackman v <= blackman u.
Proof.
  intros H0 Huv Hpi. rewrite !blackman_factored.
  pose proof (cos_decr_1 u v H0 ltac:(lra) ltac:(lra) Hpi Huv) as Hc.
  pose proof (COS_bound u) as [Hu1 Hu2]. pose proof (COS_bound v) as [Hv1 Hv2].
  nra.
Qed.

Lemma sinc_even (x : R) : np.sinc (- x) = np.sinc x.
Proof.
  unfold np.sinc.
  destruct (Req_dec_T (- x) 0) as [E|E], (Req_dec_T x 0) as [E'|E'];
    try lra.
  replace (PI * - x) with (- (PI * x)) by ring.
  rewrite sin_neg. field. pose proof PI_RGT_0. nra.
Qed.

Lemma sinc_nonzero (x : R) : x <> 0 -> np.sinc x = sin (PI * x) / (PI * x).
Proof.
  intros H. unfold np.sinc.
  destruct (Req_dec_T x 0); [contradiction | reflexivity].
Qed.

Lemma sinc_zero : np.sinc 0 = 1.
Proof.
  unfold np.sinc. destruct (Req_dec_T 0 0); [reflexivity | contradiction].
Qed.

Lemma odd_length_minus_1 (M : nat) :
  IZR (Z.of_nat (2 * M + 1)) - 1 = 2 * INR M.
Proof.
  rewrite <- INR_IZR_INZ, plus_INR, mult_INR. simpl. ring.
Qed.

Lemma w_centre (M : nat) :
  (1 <= M)%nat -> Smooth.w (Z.of_nat (2 * M + 1)) (Z.of_nat M) = 1.
Proof.
  intros HM. unfold Smooth.w. rewrite odd_length_minus_1, <- INR_IZR_INZ.
  assert (Hm : INR M <> 0) by (apply not_0_INR; lia).
  replace (2 * PI * INR M / (2 * INR M)) with PI by (field; exact Hm).
  replace (4 * PI * INR M / (2 * INR M)) with (2 * PI) by (field; exact Hm).
  rewrite cos_PI, cos_2PI. lra.
Qed.

Lemma w_right (M i : nat) :
  (1 <= M)%nat ->
  Smooth.w (Z.of_nat (2 * M + 1)) (Z.of_nat (M + S i))
  = blackman (PI * INR (S i) / INR M).
Proof.
  intros HM. unfold Smooth.w, blackman.
  rewrite odd_length_minus_1, <- INR_IZR_INZ, plus_INR.
  assert (Hm : INR M <> 0) by (apply not_0_INR; lia).
  set (u := PI * INR (S i) / INR M).
  replace (2 * PI * (INR M + INR (S i)) / (2 * INR M)) with (u + PI)
    by (unfold u; field; exact Hm).
  replace (4 * PI * (INR M + INR (S i)) / (2 * INR M))
    with (2 * u + 2 * INR 1 * PI)
    by (unfold u; simpl; field; exact Hm).
  rewrite neg_cos, cos_period. lra.
Qed.

Lemma w_left (M i : nat) :
  (S i <= M)%nat ->
  Smooth.w (Z.of_nat (2 * M + 1)) (Z.of_nat (M - S i))
  = blackman (PI * INR (S i) / INR M).
Proof.
  intros HM. unfold Smooth.w, blackman.
  rewrite odd_length_minus_1, <- INR_IZR_INZ, minus_INR by lia.
  assert (Hm : INR M <> 0) by (apply not_0_INR; lia).
  set (u := PI * INR (S i) / INR M).
  replace (2 * PI * (INR M - INR (S i)) / (2 * INR M)) with (- u + PI)
    by (unfold u; field; exact Hm).
  replace (4 * PI * (INR M - INR (S i)) / (2 * INR M))
    with (- (2 * u) + 2 * INR 1 * PI)
    by (unfold u; simpl; field; exact Hm).
  rewrite neg_cos, cos_period, !cos_neg. lra.
Qed.

Lemma sinc_tap_centre (fc : Q) (M : nat) :
  Smooth.sinc_tap fc (Z.of_nat (2 * M + 1)) (Z.of_nat M) = 1.
Proof.
  unfold Smooth.sinc_tap. rewrite odd_length_minus_1, <- INR_IZR_INZ.
  replace (2 * Q2R fc * (INR M - 2 * INR M / 2)) with 0 by field.
  apply sinc_zero.
Qed.

Lemma sinc_tap_right (fc : Q) (M i : nat) :
  Smooth.sinc_tap fc (Z.of_nat (2 * M + 1)) (Z.of_nat (M + S i))
  = np.sinc (2 * Q2R fc * INR (S i)).
Proof.
  unfold Smooth.sinc_tap. rewrite odd_length_minus_1, <- INR_IZR_INZ, plus_INR.
  f_equal. field.
Qed.

Lemma sinc_tap_left (fc : Q) (M i : nat) :
  (S i <= M)%nat ->
  Smooth.sinc_tap fc (Z.of_nat (2 * M + 1)) (Z.of_nat (M - S i))
  = np.sinc (2 * Q2R fc * INR (S i)).
Proof.
  intros H. unfold Smooth.sinc_tap.
  rewrite odd_length_minus_1, <- INR_IZR_INZ, minus_INR by lia.
  rewrite <- sinc_even. f_equal. field.
Qed.

(** *** Summation by parts *)

(** Decreasing weights against terms whose partial sums are non-negative. *)
Lemma decreasing_weights_bound (V : nat -> R) (x : R) (m : nat) :
  (forall k, (S k <= m)%nat -> V (S k) <= V k) ->
  (forall j, 0 <= fejer_sum j x) ->
  V m * fejer_sum (S m) x
  <= np.sum (map (fun k => V k * (sin (INR (S k) * x) / INR (S k)))
                 (seq 0 (S m))).
Proof.
  intros Hdec Hfj. induction m as [|m IH].
  - simpl. rewrite Rmult_1_l. lra.
  - rewrite seq_S, map_app, sum_app. cbn [map np.sum fold_right Nat.add].
    specialize (IH (fun k Hk => Hdec k ltac:(lia))).
    pose proof (Hdec m ltac:(lia)) as Hm. pose proof (Hfj (S m)) as Hf.
    cbn [fejer_sum] in *.
    set (a := sin (INR (S (S m)) * x) / INR (S (S m))) in *.
    set (F := fejer_sum m x + sin (INR (S m) * x) / INR (S m)) in *.
    nra.
Qed.

Lemma seq_from (s n : nat) : seq s n = map (fun i => (s + i)%nat) (seq 0 n).
Proof.
  revert s. induction n as [|n IH]; intros s; [reflexivity|].
  cbn [seq map]. rewrite Nat.add_0_r. f_equal.
  rewrite (IH (S s)), <- seq_shift, map_map.
  apply map_ext. intros i. lia.
Qed.

Lemma Q2R_half : Q2R 0.5 = / 2.
Proof. unfold Q2R. simpl. lra. Qed.

Lemma tap_angle (fc : Q) :
  (0 < fc)%Q -> (fc < 0.5)%Q -> 0 < PI * (2 * Q2R fc) < PI.
Proof.
  intros H0 H1. apply Qlt_Rlt in H0, H1.
  rewrite RMicromega.Q2R_0 in H0. rewrite Q2R_half in H1.
  pose proof PI_RGT_0. split; nra.
Qed.

Lemma fejer_sum_nonneg (j : nat) (x : R) : 0 < x < PI -> 0 <= fejer_sum j x.
Proof.
  intros Hx. destruct j as [|j]; [simpl; lra|].
  left. apply fejer_jackson; [lia | exact Hx].
Qed.

(** The un-normalised taps sum to at least the centre tap. *)
Lemma windowed_sum_ge_1 (fc : Q) (M : nat) :
  (0 < fc)%Q -> (fc < 0.5)%Q -> (1 <= M)%nat ->
  1 <= np.sum (Smooth.windowed fc (Z.of_nat (2 * M + 1))).
Proof.
  intros H0 H1 HM.
  pose proof (tap_angle fc H0 H1) as Hth.
  set (th := PI * (2 * Q2R fc)) in *.
  set (N := Z.of_nat (2 * M + 1)).
  set (tap := fun i : nat =>
                Smooth.sinc_tap fc N (Z.of_nat i) * Smooth.w N (Z.of_nat i)).
  set (V := fun k : nat => blackman (PI * INR (S k) / INR M)).
  set (h := fun k : nat => V k * (sin (INR (S k) * th) / INR (S k))).
  assert (Hm : 0 < INR M) by (apply lt_0_INR; lia).
  assert (Hside : forall i, (i < M)%nat ->
            tap (M - S i)%nat = / th * h i /\ tap (M + S i)%nat = / th * h i).
  { intros i Hi. unfold tap, N, h, V.
    rewrite sinc_tap_left, w_left, sinc_tap_right, w_right by lia.
    assert (Hk : 0 < INR (S i)) by (apply lt_0_INR; lia).
    rewrite sinc_nonzero.
    2:{ apply Rgt_not_eq. unfold th in Hth.
        assert (0 < 2 * Q2R fc) by (pose proof PI_RGT_0; nra). nra. }
    replace (PI * (2 * Q2R fc * INR (S i))) with (INR (S i) * th)
      by (unfold th; ring).
    split; field; lra. }
  assert (Hsum : np.sum (Smooth.windowed fc N)
                 = 1 + 2 * (/ th * np.sum (map h (seq 0 M)))).
  { unfold Smooth.windowed, np.arange, N. rewrite Nat2Z.id, map_map.
    fold N. change (fun x : nat => Smooth.sinc_tap fc N (Z.of_nat x)
                                   * Smooth.w N (Z.of_nat x)) with tap.
    replace (2 * M + 1)%nat with (M + S M)%nat by lia.
    rewrite seq_app, map_app, sum_app. cbn [seq map np.sum fold_right Nat.add].
    rewrite <- (sum_seq_reversed tap M).
    rewrite (seq_from (S M) M), map_map.
    rewrite (sum_map_ext (fun i => tap (M - 1 - i)%nat) (fun i => / th * h i)).
    2:{ intros i Hi. apply in_seq in Hi.
        replace (M - 1 - i)%nat with (M - S i)%nat by lia.
        apply (Hside i). lia. }
    rewrite (sum_map_ext (fun i => tap (S M + i)%nat) (fun i => / th * h i)).
    2:{ intros i Hi. apply in_seq in Hi.
        replace (S M + i)%nat with (M + S i)%nat by lia.
        apply (Hside i). lia. }
    rewrite sum_map_scal.
    assert (Hc : tap M = 1).
    { unfold tap, N. rewrite sinc_tap_centre, w_centre by lia. ring. }
    rewrite Hc. ring. }
  rewrite Hsum.
  assert (Hpos : 0 <= np.sum (map h (seq 0 M))).
  { destruct M as [|m]; [lia|].
    eapply Rle_trans; [|apply (decreasing_weights_bound V th m)].
    - apply Rmult_le_pos; [apply blackman_nonneg | apply fejer_sum_nonneg, Hth].
    - intros k Hk. unfold V. apply blackman_decreasing.
      + apply Rmult_le_pos; [|left; apply Rinv_0_lt_compat; exact Hm].
        apply Rmult_le_pos; [left; apply PI_RGT_0 | apply pos_INR].
      + apply Rmult_le_compat_r; [left; apply Rinv_0_lt_compat; exact Hm|].
        apply Rmult_le_compat_l; [left; apply PI_RGT_0|].
        apply le_INR. lia.
      + apply (Rmult_le_reg_r (INR (S m))); [exact Hm|].
        unfold Rdiv. rewrite Rmult_assoc, Rinv_l by lra. rewrite Rmult_1_r.
        apply Rmult_le_compat_l; [left; apply PI_RGT_0|].
        apply le_INR. lia.
    - intros j. apply fejer_sum_nonneg, Hth. }
  assert (0 < / th) by (apply Rinv_0_lt_compat; lra).
  nra.
Qed.

Lemma filt_sum (fc : Q) (N : Z) :
  np.sum (Smooth.windowed fc N) <> 0 -> np.sum (Smooth.filt fc N) = 1.
Proof.
  intros H. unfold Smooth.filt. rewrite sum_map_div. field. exact H.
Qed.

Lemma kernel_length_shape (b : Q) (n : Z) :
  (0 < b)%Q -> (b < 0.5)%Q -> Smooth.N b = Ok n ->
  exists M : nat, (4 <= M)%nat /\ n = Z.of_nat (2 * M + 1).
Proof.
  intros H0 H1 HN.
  pose proof (ceiling_above_8 b H0 H1) as H9.
  rewrite N_defined in HN.
  2:{ intros E. rewrite E in H0. discriminate H0. }
  injection HN as <-.
  set (c := Qceiling (4 / b)) in *.
  pose proof (Z.div_mod c 2 ltac:(lia)) as Hdm.
  pose proof (Z.mod_pos_bound c 2 ltac:(lia)) as Hmb.
  exists (Z.to_nat (c / 2)).
  destruct (Z.eqb_spec (c mod 2) 0) as [E|E]; split; lia.
Qed.

(** C2. For every cutoff fraction [fc] and transition fraction [b] in the
    open interval (0, 0.5), the designed kernel (sinc taps times Blackman
    window, divided by their sum) has taps that sum to 1, a fortiori to
    within 1e-9.  The divisor is never zero: the un-normalised taps sum to
    at least 1, the value of the centre tap. *)
Theorem C2_unity_gain (fc b : Q) (n : Z) :
  (0 < fc)%Q -> (fc < 0.5)%Q -> (0 < b)%Q -> (b < 0.5)%Q ->
  Smooth.N b = Ok n ->
  1 <= np.sum (Smooth.windowed fc n) /\
  np.sum (Smooth.filt fc n) = 1 /\
  Rabs (np.sum (Smooth.filt fc n) - 1) <= 1e-9.
Proof.
  intros Hf0 Hf1 Hb0 Hb1 HN.
  destruct (kernel_length_shape b n Hb0 Hb1 HN) as (M & HM & ->).
  pose proof (windowed_sum_ge_1 fc M Hf0 Hf1 ltac:(lia)) as Hs.
  assert (Hone : np.sum (Smooth.filt fc (Z.of_nat (2 * M + 1))) = 1)
    by (apply filt_sum; lra).
  split; [exact Hs|]. split; [exact Hone|].
  rewrite Hone. replace (1 - 1) with 0 by ring. rewrite Rabs_R0. lra.
Qed.

Lemma C2_unity_gain_witness :
  1 <= np.sum (Smooth.windowed Smooth.fc 9) /\
  np.sum (Smooth.filt Smooth.fc 9) = 1 /\
  Rabs (np.sum (Smooth.filt Smooth.fc 9) - 1) <= 1e-9.
Proof.
  apply (C2_unity_gain Smooth.fc Smooth.b 9); reflexivity.
Defined.

(** ** The discrete maximum *)

Lemma fold_Rmax_ge_init (t : list R) (x : R) : x <= fold_left Rmax t x.
Proof.
  revert x. induction t as [|y t IH]; intros x; simpl.
  - lra.
  - eapply Rle_trans; [apply (Rmax_l x y) | apply IH].
Qed.

Lemma fold_Rmax_upper (t : list R) (x y : R) :
  In y (x :: t) -> y <= fold_left Rmax t x.
Proof.
  revert x. induction t as [|u t IH]; intros x [H|H]; simpl in *.
  - lra.
  - contradiction.
  - subst y. eapply Rle_trans; [apply (Rmax_l x u) | apply fold_Rmax_ge_init].
  - destruct H as [H|H].
    + subst y. eapply Rle_trans; [apply (Rmax_r x u) | apply fold_Rmax_ge_init].
    + apply IH. right. exact H.
Qed.

Lemma fold_Rmax_attained (t : list R) (x : R) :
  In (fold_left Rmax t x) (x :: t).
Proof.
  revert x. induction t as [|u t IH]; intros x; simpl.
  - left. reflexivity.
  - destruct (IH (Rmax x u)) as [H|H].
    + rewrite <- H. unfold Rmax. destruct (Rle_dec x u); auto.
    + right. right. exact H.
Qed.

(** The head of [where_eq_from i l m] is the first position of [m]. *)
Lemma where_eq_from_first (l : list R) (m : R) (i : Z) :
  In m l ->
  exists (k : nat) (rest : list Z),
    np.where_eq_from i l m = (i + Z.of_nat k)%Z :: rest /\
    (k < length l)%nat /\
    nth k l 0 = m /\
    (forall j, (j < k)%nat -> nth j l 0 <> m).
Proof.
  revert i. induction l as [|x l IH]; intros i Hin; [destruct Hin|].
  simpl. destruct (Req_dec_T x m) as [E|E].
  - exists 0%nat, (np.where_eq_from (i + 1) l m).
    rewrite Z.add_0_r. repeat split; simpl; try lia; auto.
  - destruct Hin as [Hx|Hin]; [contradiction|].
    destruct (IH (i + 1)%Z Hin) as (k & rest & Hw & Hk & Hn & Hfirst).
    exists (S k), rest. repeat split; simpl; try lia; auto.
    + rewrite Hw. f_equal. lia.
    + intros [|j] Hj; [exact E|]. apply Hfirst. lia.
Qed.



(** ** Slicing *)

Lemma adjust_range (len k : Z) :
  (0 <= len)%Z -> (0 <= py.adjust len k <= len)%Z.
Proof. intros H. unfold py.adjust. destruct (Z.ltb_spec k 0); lia. Qed.

Lemma slice_length {A : Type} (l : list A) (start stop : Z) :
  length (py.slice l start stop)
  = Z.to_nat (py.adjust (Z.of_nat (length l)) stop
              - py.adjust (Z.of_nat (length l)) start).
Proof.
  unfold py.slice. rewrite length_firstn, length_skipn.
  pose proof (adjust_range (Z.of_nat (length l)) start ltac:(lia)).
  pose proof (adjust_range (Z.of_nat (length l)) stop ltac:(lia)).
  lia.
Qed.

(** ** Roots, their mean, and the vertex *)

Lemma mean_roots_vertex (a b c : R) :
  a <> 0 ->
  np.mean (np.roots (a, b, c)) = Num (RtoC (- b / (2 * a))).
Proof.
  intros Ha. unfold np.roots.
  destruct (Req_dec_T a 0) as [E|_]; [contradiction|].
  destruct (Req_dec_T c 0) as [Ec|Ec].
  - destruct (Req_dec_T b 0) as [Eb|Eb];
      unfold np.mean, Cdivr, Cadd, RtoC; simpl; do 2 f_equal;
      try subst b; field; exact Ha.
  - unfold np.companion_eigvals.
    destruct (Rle_dec 0 ((- b / a) ^ 2 - 4 * (c / a)));
      unfold np.mean, Cdivr, Cadd, RtoC; simpl; f_equal; f_equal;
      field; exact Ha.
Qed.

(** ** Least squares on exact samples of a quadratic *)

Lemma sq_residual_nonneg (p : poly2) (xs ys : list R) :
  0 <= np.sq_residual p xs ys.
Proof.
  revert ys. induction xs as [|x xs IH]; intros [|y ys]; simpl; try lra.
  specialize (IH ys). pose proof (pow2_ge_0 (np.polyval p x - y)).
  simpl in *. lra.
Qed.

Lemma sq_residual_sampled (q : poly2) (xs ys : list R) :
  sampled q xs ys -> np.sq_residual q xs ys = 0.
Proof.
  induction 1 as [|x y xs ys Hxy _ IH]; simpl; [reflexivity|].
  rewrite IH, Hxy. ring.
Qed.

Lemma sq_residual_zero_agrees (p q : poly2) (xs ys : list R) :
  sampled q xs ys -> np.sq_residual p xs ys = 0 ->
  forall x, In x xs -> np.polyval p x = np.polyval q x.
Proof.
  induction 1 as [|x y xs ys Hxy _ IH]; intros Hz x0 Hin; [destruct Hin|].
  cbn [np.sq_residual] in Hz.
  pose proof (sq_residual_nonneg p xs ys) as Hr.
  pose proof (pow2_ge_0 (np.polyval p x - y)) as Hs.
  assert (Hhead : (np.polyval p x - y) ^ 2 = 0) by lra.
  assert (Hrest : np.sq_residual p xs ys = 0) by lra.
  destruct Hin as [<-|Hin].
  - assert (np.polyval p x - y = 0) by nra. lra.
  - exact (IH Hrest x0 Hin).
Qed.

(** Two quadratics that agree at three different points are equal. *)
Lemma quadratic_determined (p q : poly2) (x1 x2 x3 : R) :
  x1 <> x2 -> x1 <> x3 -> x2 <> x3 ->
  np.polyval p x1 = np.polyval q x1 ->
  np.polyval p x2 = np.polyval q x2 ->
  np.polyval p x3 = np.polyval q x3 ->
  p = q.
Proof.
  destruct p as [[a1 b1] c1], q as [[a2 b2] c2]. unfold np.polyval.
  intros H12 H13 H23 E1 E2 E3.
  set (A := a1 - a2). set (B := b1 - b2).
  assert (S12 : (x1 - x2) * (A * (x1 + x2) + B) = 0) by (unfold A, B; nra).
  assert (S13 : (x1 - x3) * (A * (x1 + x3) + B) = 0) by (unfold A, B; nra).
  apply Rmult_integral in S12. destruct S12 as [S12|S12]; [lra|].
  apply Rmult_integral in S13. destruct S13 as [S13|S13]; [lra|].
  assert (SA : A * (x2 - x3) = 0) by lra.
  apply Rmult_integral in SA. destruct SA as [SA|SA]; [|lra].
  assert (SB : B = 0) by (rewrite SA in S12; lra).
  assert (Ea : a1 = a2) by (unfold A in SA; lra).
  assert (Eb : b1 = b2) by (unfold B in SB; lra).
  subst a2 b2. assert (Ec : c1 = c2) by lra. subst c2. reflexivity.
Qed.

Lemma minimiser_of_samples_unique (p q : poly2) (xs ys : list R) :
  three_distinct xs -> sampled q xs ys ->
  (forall r, np.sq_residual p xs ys <= np.sq_residual r xs ys) ->
  p = q.
Proof.
  intros (x1 & x2 & x3 & I1 & I2 & I3 & H12 & H13 & H23) Hs Hmin.
  assert (Hz : np.sq_residual p xs ys = 0).
  { pose proof (Hmin q) as H. rewrite (sq_residual_sampled q xs ys Hs) in H.
    pose proof (sq_residual_nonneg p xs ys). lra. }
  pose proof (sq_residual_zero_agrees p q xs ys Hs Hz) as Hag.
  apply (quadratic_determined p q x1 x2 x3); auto.
Qed.

Lemma samples_are_lstsq_solution (q : poly2) (xs ys : list R) :
  three_distinct xs -> sampled q xs ys -> np.lstsq_solution xs ys q.
Proof.
  intros H3 Hs. split.
  - intros r. rewrite (sq_residual_sampled q xs ys Hs).
    apply sq_residual_nonneg.
  - intros r Hr.
    rewrite (minimiser_of_samples_unique r q xs ys H3 Hs Hr). lra.
Qed.

Lemma sampled_length (q : poly2) (xs ys : list R) :
  sampled q xs ys -> length xs = length ys.
Proof. induction 1; simpl; congruence. Qed.

(** [np.polyfit] returns the sampled quadratic itself. *)
Lemma polyfit_exact (q : poly2) (xs ys : list R) :
  three_distinct xs -> sampled q xs ys -> np.polyfit xs ys = Ok q.
Proof.
  intros H3 Hs. unfold np.polyfit.
  pose proof (sampled_length q xs ys Hs) as Hl.
  pose proof (epsilon_spec (inhabits (0, 0, 0)) (np.lstsq_solution xs ys)
                (ex_intro _ q (samples_are_lstsq_solution q xs ys H3 Hs)))
    as [Hmin _].
  pose proof (minimiser_of_samples_unique _ q xs ys H3 Hs Hmin) as He.
  destruct xs as [|x xs'].
  - destruct H3 as (x1 & _ & _ & [] & _).
  - rewrite Hl, Nat.eqb_refl, He. reflexivity.
Qed.

(** A full window on a strictly increasing lag axis determines the fit. *)
Lemma sorted_skipn (l : list R) (k : nat) :
  StronglySorted Rlt l -> StronglySorted Rlt (skipn k l).
Proof.
  revert l. induction k as [|k IH]; intros l Hs; [exact Hs|].
  destruct l as [|x l]; [exact Hs|].
  simpl. apply IH. apply StronglySorted_inv in Hs. tauto.
Qed.

Lemma in_firstn_in {A : Type} (l : list A) (k : nat) (y : A) :
  In y (firstn k l) -> In y l.
Proof.
  revert l. induction k as [|k IH]; intros [|x l]; simpl; try tauto.
  intros [H|H]; [left; exact H | right; exact (IH l H)].
Qed.

Lemma sorted_firstn (l : list R) (k : nat) :
  StronglySorted Rlt l -> StronglySorted Rlt (firstn k l).
Proof.
  revert l. induction k as [|k IH]; intros l Hs; [constructor|].
  destruct l as [|x l]; [constructor|].
  apply StronglySorted_inv in Hs. destruct Hs as [Hs Hall].
  simpl. constructor; [exact (IH l Hs)|].
  rewrite Forall_forall in *. intros y Hy. apply Hall.
  exact (in_firstn_in l k y Hy).
Qed.

Lemma sorted_three_distinct (l : list R) :
  StronglySorted Rlt l -> (3 <= length l)%nat -> three_distinct l.
Proof.
  intros Hs Hl.
  destruct l as [|x1 [|x2 [|x3 l]]]; simpl in Hl; try lia.
  apply StronglySorted_inv in Hs. destruct Hs as [Hs H1].
  apply StronglySorted_inv in Hs. destruct Hs as [_ H2].
  pose proof (Forall_inv H1) as H12.
  pose proof (Forall_inv (Forall_inv_tail H1)) as H13.
  pose proof (Forall_inv H2) as H23.
  exists x1, x2, x3. simpl. repeat split; auto; lra.
Qed.

Lemma full_window_three_distinct (lag : list R) (i : Z) :
  StronglySorted Rlt lag ->
  (8 <= i)%Z -> (i + 9 <= Z.of_nat (length lag))%Z ->
  length (Peak.peak_lags lag i) = 17%nat /\
  three_distinct (Peak.peak_lags lag i).
Proof.
  intros Hs Hlo Hhi.
  assert (Hlen : length (Peak.peak_lags lag i) = 17%nat).
  { unfold Peak.peak_lags, Peak.n. rewrite slice_length. unfold py.adjust.
    replace (i - 8 <? 0)%Z with false by lia.
    replace (i + 8 + 1 <? 0)%Z with false by lia.
    lia. }
  split; [exact Hlen|].
  apply sorted_three_distinct; [|lia].
  unfold Peak.peak_lags, py.slice.
  apply sorted_firstn, sorted_skipn, Hs.
Qed.



(** ** No degenerate-fit signal *)

(** Evaluation of the maximum cell on literal arrays. *)
Ltac eval_index_peak :=
  unfold Peak.index_peak, np.amax, np.where_eq, bind;
  cbn [fold_left];
  repeat match goal with
         | |- context [Rmax ?x ?y] =>
             first [ rewrite (Rmax_right x y) by lra
                   | rewrite (Rmax_left x y) by lra ]
         end;
  cbn [np.where_eq_from];
  repeat (destruct (Req_dec_T _ _) as [?E|?E]; try lra);
  reflexivity.

Lemma convex9_index_peak : Peak.index_peak Samples.convex9 = Ok 8%Z.
Proof. unfold Samples.convex9. eval_index_peak. Qed.

Lemma convex9_fit :
  Peak.p Samples.lag9 Samples.convex9 8 = Ok (1, 0, 1).
Proof.
  unfold Peak.p.
  change (Peak.peak_lags Samples.lag9 8) with Samples.lag9.
  change (Peak.peak_vals Samples.convex9 8) with Samples.convex9.
  apply polyfit_exact.
  - exists 0, 1, 2. unfold Samples.lag9. simpl.
    repeat split; auto 20; lra.
  - unfold sampled, Samples.lag9, Samples.convex9, np.polyval.
    repeat (constructor; [lra|]). constructor.
Qed.

(** C3, as stated, fails: on the array [convex9] the maximum is at the last
    index, the truncated window is fitted by [x^2 + 1], which opens upward
    and has the complex roots [i] and [-i], and the fit cell returns the
    velocity 0 instead of signalling an error. *)
Lemma C3_counterexample :
  Peak.index_peak Samples.convex9 = Ok 8%Z /\
  Peak.p Samples.lag9 Samples.convex9 8 = Ok (1, 0, 1) /\
  0 < 1 /\ 0 ^ 2 - 4 * 1 * 1 < 0 /\
  Peak.fit_at_maximum Samples.lag9 Samples.convex9 = Ok (Num (RtoC 0)) /\
  Peak.fit_at_maximum Samples.lag9 Samples.convex9
  <> Raise DegenerateFitError.
Proof.
  assert (Hv : Peak.fit_at_maximum Samples.lag9 Samples.convex9
               = Ok (Num (RtoC 0))).
  { unfold Peak.fit_at_maximum. rewrite convex9_index_peak.
    unfold bind, Peak.v_fit. rewrite convex9_fit. unfold bind.
    rewrite mean_roots_vertex by lra.
    do 3 f_equal. field. }
  repeat split; try lra.
  - exact convex9_index_peak.
  - exact convex9_fit.
  - exact Hv.
  - rewrite Hv. discriminate.
Qed.

(** C3, amended. When the fitted polynomial opens upward or has complex
    roots, the fit cell signals no error: it returns the mean of the two
    roots, which is the real number [-b/(2a)]. *)
Theorem C3_upward_or_complex_fit_returns_vertex
  (lag corr : list R) (index_peak : Z) (a b c : R) :
  Peak.p lag corr index_peak = Ok (a, b, c) ->
  0 < a \/ b ^ 2 - 4 * a * c < 0 ->
  Peak.v_fit lag corr index_peak = Ok (Num (RtoC (- b / (2 * a)))) /\
  Peak.v_fit lag corr index_peak <> Raise DegenerateFitError.
Proof.
  intros Hp Hdeg.
  assert (Ha : a <> 0).
  { destruct Hdeg as [H|H]; [lra|]. intros ->. nra. }
  assert (Hv : Peak.v_fit lag corr index_peak
               = Ok (Num (RtoC (- b / (2 * a))))).
  { unfold Peak.v_fit. rewrite Hp. unfold bind.
    rewrite (mean_roots_vertex a b c Ha). reflexivity. }
  split; [exact Hv|]. rewrite Hv. discriminate.
Qed.

Lemma C3_upward_or_complex_fit_returns_vertex_witness :
  Peak.v_fit Samples.lag9 Samples.convex9 8
  = Ok (Num (RtoC (- 0 / (2 * 1)))) /\
  Peak.v_fit Samples.lag9 Samples.convex9 8 <> Raise DegenerateFitError.
Proof.
  apply (C3_upward_or_complex_fit_returns_vertex
           Samples.lag9 Samples.convex9 8 1 0 1).
  - exact convex9_fit.
  - left. lra.
Defined.

(** ** The refinement window near the array edges *)

Lemma window_lengths_agree (lag corr : list R) (i : Z) :
  length corr = length lag ->
  length (Peak.peak_vals corr i) = length (Peak.peak_lags lag i).
Proof.
  intros H. unfold Peak.peak_vals, Peak.peak_lags.
  rewrite !slice_length, H. reflexivity.
Qed.

Lemma empty_window_raises (lag corr : list R) (i : Z) :
  Peak.peak_lags lag i = [] -> Peak.v_fit lag corr i = Raise TypeError.
Proof.
  intros H. unfold Peak.v_fit, Peak.p, np.polyfit. rewrite H. reflexivity.
Qed.

Lemma v_fit_raises_only_on_empty_window (lag corr : list R) (i : Z) (e : exn) :
  length corr = length lag ->
  Peak.v_fit lag corr i = Raise e ->
  e = TypeError /\ Peak.peak_lags lag i = [].
Proof.
  intros Hlen. pose proof (window_lengths_agree lag corr i Hlen) as Hw.
  unfold Peak.v_fit, Peak.p, np.polyfit.
  destruct (Peak.peak_lags lag i) as [|x xs].
  - simpl. intros [= <-]. split; reflexivity.
  - rewrite <- Hw, Nat.eqb_refl. simpl. discriminate.
Qed.

Lemma spike17_index_peak : Peak.index_peak Samples.spike17 = Ok 0%Z.
Proof. unfold Samples.spike17. eval_index_peak. Qed.

(** C9, as stated, fails in two places.  An error is raised: with the
    maximum at index 0 of a 17-sample array the window [lag[-8:9]] is
    empty and [np.polyfit] raises [TypeError].  And the window does not
    always start at [L-(8-i)]: for three samples and [i = 1] that number
    is -4 and the slice starts at index 0. *)
Lemma C9_counterexample :
  (Peak.index_peak Samples.spike17 = Ok 0%Z /\
   Peak.peak_lags Samples.lag17 0 = [] /\
   Peak.fit_at_maximum Samples.lag17 Samples.spike17 = Raise TypeError) /\
  ((3 - (8 - 1) = -4)%Z /\
   Peak.peak_lags [10; 20; 30] 1 = [10; 20; 30]).
Proof.
  split.
  - split; [exact spike17_index_peak|]. split; [reflexivity|].
    unfold Peak.fit_at_maximum. rewrite spike17_index_peak. reflexivity.
  - split; reflexivity.
Qed.

(** C9, amended. The fit cell has no boundary guard and never signals
    [PeakAtBoundaryError].  For a maximum at index [i < 8] the slice
    [lag[i-8 : i+9]] starts at [L-(8-i)] (at 0 when that is negative),
    holds fewer than 17 samples, and is empty whenever [L-(8-i) >= i+9],
    in which case [np.polyfit] raises [TypeError].  For [i > L-9] the
    window is cut at the end of the array and again holds fewer than 17
    samples. *)
Theorem C9_window_wraps_and_truncates (lag corr : list R) (i : Z) :
  length corr = length lag ->
  (0 <= i < Z.of_nat (length lag))%Z ->
  let L := Z.of_nat (length lag) in
  Peak.v_fit lag corr i <> Raise PeakAtBoundaryError /\
  ((i < 8)%Z ->
   Peak.peak_lags lag i
   = firstn (Z.to_nat (Z.min (i + 9) L - Z.max (L - (8 - i)) 0))
            (skipn (Z.to_nat (Z.max (L - (8 - i)) 0)) lag) /\
   (length (Peak.peak_lags lag i) < 17)%nat /\
   ((L - (8 - i) >= i + 9)%Z ->
    Peak.peak_lags lag i = [] /\
    Peak.v_fit lag corr i = Raise TypeError)) /\
  ((i > L - 9)%Z -> (length (Peak.peak_lags lag i) < 17)%nat).
Proof.
  intros Hlen Hi L.
  assert (Hwin : (i < 8)%Z ->
                 Peak.peak_lags lag i
                 = firstn (Z.to_nat (Z.min (i + 9) L - Z.max (L - (8 - i)) 0))
                          (skipn (Z.to_nat (Z.max (L - (8 - i)) 0)) lag)).
  { intros H8. unfold Peak.peak_lags, py.slice, py.adjust, Peak.n. fold L.
    replace (i - 8 <? 0)%Z with true by lia.
    replace (i + 8 + 1 <? 0)%Z with false by lia.
    replace (i - 8 + L)%Z with (L - (8 - i))%Z by lia.
    replace (i + 8 + 1)%Z with (i + 9)%Z by lia.
    reflexivity. }
  assert (Hshort : (i < 8)%Z -> (length (Peak.peak_lags lag i) < 17)%nat).
  { intros H8. rewrite (Hwin H8), length_firstn, length_skipn. lia. }
  split; [|split].
  - intros H.
    destruct (v_fit_raises_only_on_empty_window lag corr i _ Hlen H) as [E _].
    discriminate E.
  - intros H8. split; [exact (Hwin H8)|]. split; [exact (Hshort H8)|].
    intros Hempty.
    assert (Hnil : Peak.peak_lags lag i = []).
    { apply length_zero_iff_nil.
      rewrite (Hwin H8), length_firstn, length_skipn. lia. }
    split; [exact Hnil | exact (empty_window_raises lag corr i Hnil)].
  - intros Hend.
    destruct (Z.lt_ge_cases i 8) as [H8|H8]; [exact (Hshort H8)|].
    unfold Peak.peak_lags, Peak.n. rewrite slice_length. fold L.
    unfold py.adjust.
    replace (i - 8 <? 0)%Z with false by lia.
    replace (i + 8 + 1 <? 0)%Z with false by lia.
    lia.
Qed.

Lemma C9_window_wraps_and_truncates_witness :
  let L := Z.of_nat (length Samples.lag17) in
  Peak.v_fit Samples.lag17 Samples.spike17 0 <> Raise PeakAtBoundaryError /\
  ((0 < 8)%Z ->
   Peak.peak_lags Samples.lag17 0
   = firstn (Z.to_nat (Z.min (0 + 9) L - Z.max (L - (8 - 0)) 0))
            (skipn (Z.to_nat (Z.max (L - (8 - 0)) 0)) Samples.lag17) /\
   (length (Peak.peak_lags Samples.lag17 0) < 17)%nat /\
   ((L - (8 - 0) >= 0 + 9)%Z ->
    Peak.peak_lags Samples.lag17 0 = [] /\
    Peak.v_fit Samples.lag17 Samples.spike17 0 = Raise TypeError)) /\
  ((0 > L - 9)%Z -> (length (Peak.peak_lags Samples.lag17 0) < 17)%nat).
Proof.
  apply (C9_window_wraps_and_truncates Samples.lag17 Samples.spike17 0).
  - reflexivity.
  - simpl. lia.
Defined.

(** ** The smoothing cell *)

Lemma arange_length (N : Z) : length (np.arange N) = Z.to_nat N.
Proof. unfold np.arange. rewrite length_map, length_seq. reflexivity. Qed.

Lemma filt_length (fc : Q) (N : Z) : length (Smooth.filt fc N) = Z.to_nat N.
Proof.
  unfold Smooth.filt, Smooth.windowed.
  rewrite !length_map. apply arange_length.
Qed.

Lemma correlate_same_length (a w : list R) :
  length (np.correlate_same a w) = length a.
Proof.
  unfold np.correlate_same. rewrite length_map, length_seq. reflexivity.
Qed.

(** The output of [np.convolve(..., mode='same')] has the length of the
    longer argument. *)
Lemma convolve_same_length (a v r : list R) :
  np.convolve_same a v = Ok r -> length r = Nat.max (length a) (length v).
Proof.
  unfold np.convolve_same.
  destruct (Nat.ltb_spec (length a) (length v)) as [H|H].
  - destruct (length v =? 0)%nat; [discriminate|].
    destruct (length a =? 0)%nat; [discriminate|].
    intros [= <-]. rewrite correlate_same_length. lia.
  - destruct (length a =? 0)%nat; [discriminate|].
    destruct (length v =? 0)%nat; [discriminate|].
    intros [= <-]. rewrite correlate_same_length. lia.
Qed.

Lemma convolve_same_signal_longer (a v : list R) :
  (0 < length v <= length a)%nat ->
  np.convolve_same a v = Ok (np.correlate_same a (rev v)).
Proof.
  intros H. unfold np.convolve_same.
  destruct (Nat.ltb_spec (length a) (length v)) as [H'|_]; [lia|].
  destruct (Nat.eqb_spec (length a) 0) as [E|_]; [lia|].
  destruct (Nat.eqb_spec (length v) 0) as [E|_]; [lia|].
  reflexivity.
Qed.

Lemma convolve_same_kernel_longer (a v : list R) :
  (0 < length a < length v)%nat ->
  np.convolve_same a v = Ok (np.correlate_same v (rev a)).
Proof.
  intros H. unfold np.convolve_same.
  destruct (Nat.ltb_spec (length a) (length v)) as [_|H']; [|lia].
  destruct (Nat.eqb_spec (length v) 0) as [E|_]; [lia|].
  destruct (Nat.eqb_spec (length a) 0) as [E|_]; [lia|].
  reflexivity.
Qed.

Lemma Spectrum1D_ok (wl fl : list R) (u : option (list R)) :
  length wl = length fl ->
  (forall v, u = Some v -> length v = length fl) ->
  Spectrum1D wl fl u = Ok (mkSpectrum wl fl u).
Proof.
  intros Hw Hu. unfold Spectrum1D. rewrite Hw, Nat.eqb_refl. simpl.
  destruct u as [v|]; [|reflexivity].
  rewrite (Hu v eq_refl), Nat.eqb_refl. reflexivity.
Qed.

Lemma Spectrum1D_inv (wl fl : list R) (u : option (list R)) (s : Spectrum) :
  Spectrum1D wl fl u = Ok s ->
  s = mkSpectrum wl fl u /\
  length wl = length fl /\
  (forall v, u = Some v -> length v = length fl).
Proof.
  unfold Spectrum1D.
  destruct (Nat.eqb_spec (length wl) (length fl)) as [Hw|]; [|discriminate].
  simpl. destruct u as [v|].
  - destruct (Nat.eqb_spec (length v) (length fl)) as [Hv|]; [|discriminate].
    simpl. intros [= <-]. repeat split; auto. intros v' [= <-]. exact Hv.
  - intros [= <-]. repeat split; auto. discriminate.
Qed.

(** C6, as stated, fails for a spectrum shorter than the kernel: numpy
    takes the longer argument as the signal, so one flux sample convolved
    with the 9-tap kernel gives 9 values, and no spectrum with a flux of
    length 1 is returned. *)
Lemma C6_counterexample :
  Smooth.N Smooth.b = Ok 9%Z /\
  (exists l, Smooth.sflux Samples.one_sample Smooth.fc Smooth.b = Ok l /\
             length l = 9%nat) /\
  ~ (exists s',
        Smooth.p_obs Samples.one_sample Smooth.fc Smooth.b = Ok s' /\
        length (flux s') = length (flux Samples.one_sample)).
Proof.
  assert (HN : Smooth.N Smooth.b = Ok 9%Z) by reflexivity.
  assert (Hs : Smooth.sflux Samples.one_sample Smooth.fc Smooth.b
               = Ok (np.correlate_same (Smooth.filt Smooth.fc 9) (rev [1]))).
  { unfold Smooth.sflux. rewrite HN. unfold bind.
    apply convolve_same_kernel_longer. rewrite filt_length. simpl. lia. }
  split; [exact HN|]. split.
  - eexists. split; [exact Hs|].
    rewrite correlate_same_length, filt_length. reflexivity.
  - intros (s' & Hp & Hl). unfold Smooth.p_obs in Hp. rewrite Hs in Hp.
    unfold bind in Hp. apply Spectrum1D_inv in Hp.
    destruct Hp as (_ & Hw & _).
    rewrite correlate_same_length, filt_length in Hw. discriminate Hw.
Qed.

(** C6, amended. For an input spectrum whose three arrays have one length
    [L] and a designed kernel whose length [N] is at most [L], the
    smoothing cell returns a new spectrum whose flux is the same-mode
    convolution, of length [L], and whose wavelength and uncertainty are
    those of the input. *)
Theorem C6_filter_keeps_length_and_axes (s : Spectrum) (fc b : Q) (n : Z) :
  (0 < b)%Q -> (b < 0.5)%Q ->
  length (wavelength s) = length (flux s) ->
  (forall u, uncertainty s = Some u -> length u = length (flux s)) ->
  Smooth.N b = Ok n ->
  (n <= Z.of_nat (length (flux s)))%Z ->
  exists s',
    Smooth.p_obs s fc b = Ok s' /\
    flux s' = np.correlate_same (flux s) (rev (Smooth.filt fc n)) /\
    length (flux s') = length (flux s) /\
    wavelength s' = wavelength s /\
    uncertainty s' = uncertainty s.
Proof.
  intros H0 H1 Hw Hu HN Hle.
  assert (H9 : (9 <= n)%Z).
  { pose proof (ceiling_above_8 b H0 H1) as Hc.
    rewrite N_defined in HN.
    2:{ intros E. rewrite E in H0. discriminate H0. }
    injection HN as <-.
    destruct (Qceiling (4 / b) mod 2 =? 0)%Z; lia. }
  set (sf := np.correlate_same (flux s) (rev (Smooth.filt fc n))).
  assert (Hs : Smooth.sflux s fc b = Ok sf).
  { unfold Smooth.sflux. rewrite HN. unfold bind.
    apply convolve_same_signal_longer. rewrite filt_length. lia. }
  assert (Hlen : length sf = length (flux s))
    by apply correlate_same_length.
  exists (mkSpectrum (wavelength s) sf (uncertainty s)).
  split; [|repeat split; auto].
  unfold Smooth.p_obs. rewrite Hs. unfold bind.
  apply Spectrum1D_ok.
  - congruence.
  - intros u Hu'. rewrite (Hu u Hu'). congruence.
Qed.

Lemma C6_filter_keeps_length_and_axes_witness :
  exists s',
    Smooth.p_obs (mkSpectrum Samples.lag17 Samples.parabola17 None)
                 Smooth.fc Smooth.b = Ok s' /\
    flux s' = np.correlate_same Samples.parabola17
                                (rev (Smooth.filt Smooth.fc 9)) /\
    length (flux s') = length Samples.parabola17 /\
    wavelength s' = Samples.lag17 /\
    uncertainty s' = None.
Proof.
  apply (C6_filter_keeps_length_and_axes
           (mkSpectrum Samples.lag17 Samples.parabola17 None)
           Smooth.fc Smooth.b 9).
  - reflexivity.
  - reflexivity.
  - reflexivity.
  - discriminate.
  - reflexivity.
  - simpl. lia.
Defined.

(** ** The spectrum invariant *)

Lemma rows_columns (wv fl wt un : list R) :
  length wv = length fl -> length fl = length wt -> length wt = length un ->
  map Obs.col_wavelength (Obs.rows wv fl wt un) = wv /\
  map Obs.col_flux (Obs.rows wv fl wt un) = fl /\
  map Obs.col_weight (Obs.rows wv fl wt un) = wt /\
  map Obs.col_uncertainty (Obs.rows wv fl wt un) = un.
Proof.
  revert fl wt un.
  induction wv as [|x wv IH]; intros [|f fl] [|g wt] [|u un];
    simpl; try discriminate; auto.
  intros [= H1] [= H2] [= H3].
  destruct (IH fl wt un H1 H2 H3) as (-> & -> & -> & ->). auto.
Qed.

Lemma wave_length (fl : list R) (cd1_1 crval1 : R) :
  length (Obs.wave fl cd1_1 crval1) = length fl.
Proof.
  unfold Obs.wave. rewrite length_map, arange_length. apply Nat2Z.id.
Qed.

Lemma linear_grid_sorted (cd1_1 crval1 : R) (start len : nat) :
  0 < cd1_1 ->
  StronglySorted Rlt
    (map (fun i => IZR i * cd1_1 + crval1) (map Z.of_nat (seq start len))).
Proof.
  intros Hcd. revert start.
  induction len as [|len IH]; intros start; simpl; constructor.
  - apply IH.
  - apply Forall_forall. intros y Hy.
    apply in_map_iff in Hy. destruct Hy as (k & <- & Hk).
    apply in_map_iff in Hk. destruct Hk as (j & <- & Hj).
    apply in_seq in Hj.
    assert (Hlt : IZR (Z.of_nat start) < IZR (Z.of_nat j))
      by (apply IZR_lt; lia).
    nra.
Qed.

Lemma wave_sorted (fl : list R) (cd1_1 crval1 : R) :
  0 < cd1_1 -> StronglySorted Rlt (Obs.wave fl cd1_1 crval1).
Proof.
  intros Hcd. unfold Obs.wave, np.arange.
  apply linear_grid_sorted. exact Hcd.
Qed.

(** Dropping rows keeps a column sorted. *)
Lemma filter_keeps_column_sorted {A : Type} (g : A -> R) (f : A -> bool)
  (l : list A) :
  StronglySorted Rlt (map g l) -> StronglySorted Rlt (map g (filter f l)).
Proof.
  induction l as [|x l IH]; simpl; intros Hs; [constructor|].
  apply StronglySorted_inv in Hs. destruct Hs as [Hs Hall].
  destruct (f x); simpl; [|exact (IH Hs)].
  constructor; [exact (IH Hs)|].
  rewrite Forall_forall in *. intros y Hy. apply Hall.
  apply in_map_iff in Hy. destruct Hy as (r & <- & Hr).
  apply filter_In in Hr. apply in_map. tauto.
Qed.

Lemma scaling_keeps_sorted (k : R) (l : list R) :
  0 < k -> StronglySorted Rlt l ->
  StronglySorted Rlt (map (fun x => x * k) l).
Proof.
  intros Hk. induction 1 as [|x l _ IH Hall]; simpl; constructor; auto.
  rewrite Forall_forall in *. intros y Hy.
  apply in_map_iff in Hy. destruct Hy as (u & <- & Hu).
  specialize (Hall u Hu). nra.
Qed.

Lemma dataspec_sub_weights (t : list Obs.row) (r : Obs.row) :
  In r (Obs.dataspec_sub t) <-> In r t /\ 0 < Obs.col_weight r.
Proof.
  unfold Obs.dataspec_sub. rewrite filter_In.
  destruct (Rlt_dec 0 (Obs.col_weight r)); intuition discriminate.
Qed.

Lemma continuum_keeps_invariant (s : Spectrum) (continuum_model : R -> R) :
  spectrum_invariant s ->
  spectrum_invariant (Continuum.p_obs s continuum_model).
Proof.
  intros (Hw & Hu & Hs). unfold spectrum_invariant, Continuum.p_obs. simpl.
  rewrite length_map, length_combine, Hw, Nat.min_id.
  repeat split; auto.
Qed.

Lemma smoothing_keeps_invariant (s s' : Spectrum) (fc b : Q) :
  spectrum_invariant s -> Smooth.p_obs s fc b = Ok s' ->
  spectrum_invariant s'.
Proof.
  intros (_ & _ & Hs). unfold Smooth.p_obs.
  destruct (Smooth.sflux s fc b) as [sf|e]; simpl; [|discriminate].
  intros H. apply Spectrum1D_inv in H. destruct H as (-> & Hw & Hu).
  repeat split; auto.
Qed.

Lemma redshifting_keeps_invariant (s s' : Spectrum) (z : R) :
  spectrum_invariant s -> -1 < z -> Obs.template_z s z = Ok s' ->
  spectrum_invariant s'.
Proof.
  intros (_ & _ & Hs) Hz H. unfold Obs.template_z in H.
  apply Spectrum1D_inv in H. destruct H as (-> & Hw & Hu).
  repeat split; auto. simpl.
  apply scaling_keeps_sorted; [lra | exact Hs].
Qed.

Lemma obs_columns (fl wht : list R) (cd1_1 crval1 : R) (s : Spectrum) :
  Obs.obs fl wht cd1_1 crval1 = Ok s ->
  length fl = length wht /\
  s = mkSpectrum
        (map Obs.col_wavelength
             (Obs.dataspec_sub
                (Obs.rows (Obs.wave fl cd1_1 crval1) fl wht (Obs.unc wht))))
        (map Obs.col_flux
             (Obs.dataspec_sub
                (Obs.rows (Obs.wave fl cd1_1 crval1) fl wht (Obs.unc wht))))
        (Some (map Obs.col_uncertainty
                 (Obs.dataspec_sub
                    (Obs.rows (Obs.wave fl cd1_1 crval1) fl wht
                              (Obs.unc wht))))).
Proof.
  unfold Obs.obs, Obs.dataspec.
  destruct (Nat.eqb_spec (length fl) (length wht)) as [Hl|]; [|discriminate].
  simpl. intros H. apply Spectrum1D_inv in H. tauto.
Qed.

Lemma obs_defined (fl wht : list R) (cd1_1 crval1 : R) :
  length fl = length wht ->
  exists s, Obs.obs fl wht cd1_1 crval1 = Ok s.
Proof.
  intros Hl. unfold Obs.obs, Obs.dataspec.
  rewrite Hl, Nat.eqb_refl. simpl. eexists.
  apply Spectrum1D_ok.
  - rewrite !length_map. reflexivity.
  - intros v [= <-]. rewrite !length_map. reflexivity.
Qed.

(** C7, as stated, fails in two places.  The wavelengths are
    [i * CD1_1 + CRVAL1] and nothing in the cells orders them: with a
    negative step the spectrum is built with descending wavelengths (all
    weights are positive here, so no row is dropped).  And redshifting by
    [z = -2] multiplies the wavelengths by -1, which turns an ascending
    axis into a descending one. *)
Lemma C7_counterexample :
  (exists s,
      Obs.obs [1; 1] [1; 1] (-1) 0 = Ok s /\
      wavelength s = [0 * -1 + 0; 1 * -1 + 0] /\
      ~ spectrum_invariant s) /\
  (spectrum_invariant Samples.two_samples /\
   exists s,
     Obs.template_z Samples.two_samples (-2) = Ok s /\
     wavelength s = [1 * (1 + -2); 2 * (1 + -2)] /\
     ~ spectrum_invariant s).
Proof.
  split.
  - destruct (obs_defined [1; 1] [1; 1] (-1) 0 eq_refl) as [s Hs].
    exists s. split; [exact Hs|].
    destruct (obs_columns _ _ _ _ _ Hs) as [_ ->].
    assert (Hw : map Obs.col_wavelength
                   (Obs.dataspec_sub
                      (Obs.rows (Obs.wave [1; 1] (-1) 0) [1; 1] [1; 1]
                                (Obs.unc [1; 1])))
                 = [0 * -1 + 0; 1 * -1 + 0]).
    { unfold Obs.dataspec_sub. simpl.
      destruct (Rlt_dec 0 1) as [_|H]; [reflexivity | exfalso; lra]. }
    split; [exact Hw|].
    intros (_ & _ & Hsorted). cbn [wavelength] in Hsorted.
    rewrite Hw in Hsorted.
    apply StronglySorted_inv in Hsorted. destruct Hsorted as [_ Hall].
    apply Forall_inv in Hall. lra.
  - split.
    + unfold spectrum_invariant, Samples.two_samples. simpl.
      repeat split; try discriminate.
      repeat constructor. lra.
    + eexists. split; [reflexivity|]. split; [reflexivity|].
      intros (_ & _ & Hsorted). cbn [wavelength] in Hsorted.
      apply StronglySorted_inv in Hsorted. destruct Hsorted as [_ Hall].
      apply Forall_inv in Hall. lra.
Qed.

(** C7, amended. When the wavelength step [CD1_1] is positive, every
    observed spectrum the cells build satisfies the invariant: its arrays
    have one length, its wavelengths are strictly ascending, and its
    samples are exactly the table rows whose weight is positive.
    Continuum subtraction, smoothing, and redshifting by [z > -1] each
    return a spectrum that satisfies the invariant when their input
    does. *)
Theorem C7_invariant_for_ascending_grid
  (fl wht : list R) (cd1_1 crval1 : R) (s : Spectrum) :
  0 < cd1_1 ->
  Obs.obs fl wht cd1_1 crval1 = Ok s ->
  let t := Obs.rows (Obs.wave fl cd1_1 crval1) fl wht (Obs.unc wht) in
  (Obs.dataspec fl wht cd1_1 crval1 = Ok t /\
   wavelength s = map Obs.col_wavelength (Obs.dataspec_sub t) /\
   flux s = map Obs.col_flux (Obs.dataspec_sub t) /\
   uncertainty s = Some (map Obs.col_uncertainty (Obs.dataspec_sub t)) /\
   (forall r, In r (Obs.dataspec_sub t) <-> In r t /\ 0 < Obs.col_weight r)) /\
  spectrum_invariant s /\
  (forall s0 continuum_model,
      spectrum_invariant s0 ->
      spectrum_invariant (Continuum.p_obs s0 continuum_model)) /\
  (forall s0 fc b s1,
      spectrum_invariant s0 -> Smooth.p_obs s0 fc b = Ok s1 ->
      spectrum_invariant s1) /\
  (forall s0 z s1,
      spectrum_invariant s0 -> -1 < z -> Obs.template_z s0 z = Ok s1 ->
      spectrum_invariant s1).
Proof.
  intros Hcd Hs t.
  destruct (obs_columns _ _ _ _ _ Hs) as [Hl ->]. fold t.
  split; [|split; [|split; [|split]]].
  - split; [|split; [|split; [|split]]]; try reflexivity.
    + unfold Obs.dataspec. rewrite Hl, Nat.eqb_refl. reflexivity.
    + intros r. apply dataspec_sub_weights.
  - unfold spectrum_invariant. simpl. rewrite !length_map.
    repeat split.
    + intros u [= <-]. rewrite !length_map. reflexivity.
    + apply filter_keeps_column_sorted.
      assert (Hcols : map Obs.col_wavelength t = Obs.wave fl cd1_1 crval1).
      { apply rows_columns.
        - apply wave_length.
        - exact Hl.
        - unfold Obs.unc. rewrite length_map. reflexivity. }
      rewrite Hcols. apply wave_sorted. exact Hcd.
  - exact continuum_keeps_invariant.
  - intros s0 fc b s1. apply smoothing_keeps_invariant.
  - intros s0 z s1. apply redshifting_keeps_invariant.
Qed.

Lemma C7_invariant_for_ascending_grid_witness :
  let t := Obs.rows (Obs.wave [1; 2; 3] 0.5 3000) [1; 2; 3] [1; 0; 4]
                    (Obs.unc [1; 0; 4]) in
  (Obs.dataspec [1; 2; 3] [1; 0; 4] 0.5 3000 = Ok t /\
   wavelength Samples.obs3 = map Obs.col_wavelength (Obs.dataspec_sub t) /\
   flux Samples.obs3 = map Obs.col_flux (Obs.dataspec_sub t) /\
   uncertainty Samples.obs3
   = Some (map Obs.col_uncertainty (Obs.dataspec_sub t)) /\
   (forall r, In r (Obs.dataspec_sub t) <-> In r t /\ 0 < Obs.col_weight r)) /\
  spectrum_invariant Samples.obs3 /\
  (forall s0 continuum_model,
      spectrum_invariant s0 ->
      spectrum_invariant (Continuum.p_obs s0 continuum_model)) /\
  (forall s0 fc b s1,
      spectrum_invariant s0 -> Smooth.p_obs s0 fc b = Ok s1 ->
      spectrum_invariant s1) /\
  (forall s0 z s1,
      spectrum_invariant s0 -> -1 < z -> Obs.template_z s0 z = Ok s1 ->
      spectrum_invariant s1).
Proof.
  apply (C7_invariant_for_ascending_grid
           [1; 2; 3] [1; 0; 4] 0.5 3000 Samples.obs3).
  - lra.
  - unfold Obs.obs, Obs.dataspec, Obs.dataspec_sub. simpl.
    destruct (Rlt_dec 0 1) as [_|H]; [|exfalso; lra].
    destruct (Rlt_dec 0 0) as [H|_]; [exfalso; lra|].
    destruct (Rlt_dec 0 4) as [_|H]; [|exfalso; lra].
    reflexivity.
Defined.

(** * Further properties of the cells *)

(** ** The kernel as a filter *)

Lemma nth_map_seq {A : Type} (f : nat -> A) (n i : nat) (d : A) :
  (i < n)%nat -> nth i (map f (seq 0 n)) d = f i.
Proof.
  intros Hi.
  rewrite (nth_indep _ d (f 0%nat)) by (rewrite length_map, length_seq; lia).
  rewrite map_nth, seq_nth by lia. reflexivity.
Qed.

Lemma map_nth_seq_id (l : list R) :
  map (fun j => nth j l 0) (seq 0 (length l)) = l.
Proof.
  induction l as [|x l IH]; [reflexivity|].
  cbn [length seq map nth]. f_equal.
  rewrite <- seq_shift, map_map. exact IH.
Qed.

Lemma correlate_same_nth (a w : list R) (i : nat) :
  (i < length a)%nat ->
  nth i (np.correlate_same a w) 0
  = np.sum (map (fun j : nat =>
                   np.padded a (Z.of_nat i + Z.of_nat j
                                - Z.of_nat (length w) / 2) * nth j w 0)
                (seq 0 (length w))).
Proof.
  intros Hi. unfold np.correlate_same.
  rewrite nth_map_seq by exact Hi. reflexivity.
Qed.

Lemma rev_seq (n : nat) :
  rev (seq 0 n) = map (fun i => (n - 1 - i)%nat) (seq 0 n).
Proof.
  induction n as [|n IH]; [reflexivity|].
  rewrite seq_S at 1. rewrite rev_app_distr. cbn [rev app seq map Nat.add].
  replace (S n - 1 - 0)%nat with n by lia. f_equal.
  rewrite IH, <- seq_shift, map_map. apply map_ext_in.
  intros i Hi. apply in_seq in Hi. lia.
Qed.

Lemma w_mirror (n i : nat) :
  (i < n)%nat ->
  Smooth.w (Z.of_nat n) (Z.of_nat (n - 1 - i))
  = Smooth.w (Z.of_nat n) (Z.of_nat i).
Proof.
  intros Hi. unfold Smooth.w.
  rewrite <- !INR_IZR_INZ.
  destruct (Nat.eq_dec n 1) as [->|Hn].
  { replace i with 0%nat by lia. reflexivity. }
  rewrite minus_INR by lia. rewrite minus_INR by lia.
  assert (Hd : INR n - 1 <> 0).
  { replace 1 with (INR 1) by reflexivity. rewrite <- minus_INR by lia.
    apply not_0_INR. lia. }
  simpl (INR 1).
  set (x := 2 * PI * INR i / (INR n - 1)).
  replace (2 * PI * (INR n - 1 - INR i) / (INR n - 1))
    with (- x + 2 * INR 1 * PI) by (unfold x; simpl; field; exact Hd).
  replace (4 * PI * (INR n - 1 - INR i) / (INR n - 1))
    with (- (2 * x) + 2 * INR 2 * PI) by (unfold x; simpl; field; exact Hd).
  replace (4 * PI * INR i / (INR n - 1)) with (2 * x)
    by (unfold x; field; exact Hd).
  rewrite !cos_period, !cos_neg. reflexivity.
Qed.

Lemma sinc_tap_mirror (fc : Q) (n i : nat) :
  (i < n)%nat ->
  Smooth.sinc_tap fc (Z.of_nat n) (Z.of_nat (n - 1 - i))
  = Smooth.sinc_tap fc (Z.of_nat n) (Z.of_nat i).
Proof.
  intros Hi. unfold Smooth.sinc_tap.
  rewrite <- !INR_IZR_INZ, minus_INR by lia. rewrite minus_INR by lia.
  simpl (INR 1). rewrite <- sinc_even. f_equal. field.
Qed.

Lemma windowed_symmetric (fc : Q) (N : Z) :
  rev (Smooth.windowed fc N) = Smooth.windowed fc N.
Proof.
  unfold Smooth.windowed, np.arange.
  rewrite <- !map_rev, rev_seq, !map_map.
  apply map_ext_in. intros i Hi. apply in_seq in Hi.
  assert (HN : N = Z.of_nat (Z.to_nat N)) by lia.
  rewrite HN at 1 3 4 6. rewrite Nat2Z.id.
  rewrite w_mirror, sinc_tap_mirror by lia.
  rewrite <- HN. reflexivity.
Qed.

Lemma filt_symmetric (fc : Q) (N : Z) :
  rev (Smooth.filt fc N) = Smooth.filt fc N.
Proof.
  unfold Smooth.filt. rewrite <- map_rev, windowed_symmetric. reflexivity.
Qed.

(** X1. The designed kernel is symmetric about its centre: reversing the
    taps gives the same kernel, tap [N-1-i] equals tap [i], for every
    cutoff and every length. *)
Theorem X1_kernel_symmetric (fc : Q) (N : Z) (i : nat) :
  (i < Z.to_nat N)%nat ->
  rev (Smooth.filt fc N) = Smooth.filt fc N /\
  nth (Z.to_nat N - 1 - i) (Smooth.filt fc N) 0
  = nth i (Smooth.filt fc N) 0.
Proof.
  intros Hi. pose proof (filt_symmetric fc N) as Hrev.
  split; [exact Hrev|].
  rewrite <- Hrev at 2.
  rewrite rev_nth by (rewrite filt_length; lia).
  rewrite filt_length. f_equal. lia.
Qed.

Lemma X1_kernel_symmetric_witness :
  rev (Smooth.filt Smooth.fc 9) = Smooth.filt Smooth.fc 9 /\
  nth (Z.to_nat 9 - 1 - 2) (Smooth.filt Smooth.fc 9) 0
  = nth 2 (Smooth.filt Smooth.fc 9) 0.
Proof.
  apply (X1_kernel_symmetric Smooth.fc 9 2). simpl. lia.
Defined.

Lemma sflux_empty_flux (s : Spectrum) (fc b : Q) (n : Z) :
  (0 < b)%Q -> (b < 0.5)%Q -> Smooth.N b = Ok n ->
  flux s = [] -> Smooth.sflux s fc b = Raise ValueError.
Proof.
  intros H0 H1 HN He.
  destruct (kernel_length_shape b n H0 H1 HN) as (M & HM & ->).
  unfold Smooth.sflux. rewrite HN, He. unfold bind, np.convolve_same.
  rewrite filt_length. simpl length.
  destruct (Nat.ltb_spec 0 (Z.to_nat (Z.of_nat (2 * M + 1)))) as [_|H]; [|lia].
  rewrite filt_length.
  destruct (Nat.eqb_spec (Z.to_nat (Z.of_nat (2 * M + 1))) 0) as [H|_]; [lia|].
  reflexivity.
Qed.

(** X2. For a kernel designed with [b] in (0, 0.5), the convolution raises
    [ValueError] on an empty flux array, and on a non-empty one it returns
    as many samples as the longer of the flux and the kernel. *)
Theorem X2_sflux_length (s : Spectrum) (fc b : Q) (n : Z) :
  (0 < b)%Q -> (b < 0.5)%Q -> Smooth.N b = Ok n ->
  (flux s = [] -> Smooth.sflux s fc b = Raise ValueError) /\
  (flux s <> [] ->
   exists l, Smooth.sflux s fc b = Ok l /\
             length l = Nat.max (length (flux s)) (Z.to_nat n)).
Proof.
  intros H0 H1 HN. split; [apply (sflux_empty_flux s fc b n H0 H1 HN)|].
  intros Hne.
  destruct (kernel_length_shape b n H0 H1 HN) as (M & HM & Hn).
  assert (HL : (0 < length (flux s))%nat).
  { destruct (flux s); [contradiction | simpl; lia]. }
  unfold Smooth.sflux. rewrite HN. unfold bind.
  destruct (Nat.le_gt_cases (Z.to_nat n) (length (flux s))) as [Hle|Hgt].
  - rewrite convolve_same_signal_longer by (rewrite filt_length; lia).
    eexists. split; [reflexivity|]. rewrite correlate_same_length. lia.
  - rewrite convolve_same_kernel_longer by (rewrite filt_length; lia).
    eexists. split; [reflexivity|].
    rewrite correlate_same_length, filt_length. lia.
Qed.

Lemma X2_sflux_length_witness :
  (flux Samples.one_sample = [] ->
   Smooth.sflux Samples.one_sample Smooth.fc Smooth.b = Raise ValueError) /\
  (flux Samples.one_sample <> [] ->
   exists l,
     Smooth.sflux Samples.one_sample Smooth.fc Smooth.b = Ok l /\
     length l = Nat.max (length (flux Samples.one_sample)) (Z.to_nat 9)).
Proof.
  apply (X2_sflux_length Samples.one_sample Smooth.fc Smooth.b 9);
    reflexivity.
Defined.

Lemma half_of_odd (M : nat) : (Z.of_nat (2 * M + 1) / 2 = Z.of_nat M)%Z.
Proof.
  replace (Z.of_nat (2 * M + 1)) with (1 + Z.of_nat M * 2)%Z by lia.
  rewrite Z.div_add by lia. simpl. lia.
Qed.

(** X3. Unity gain in action: a constant flux is returned unchanged by the
    smoothing at every sample that is at least half a kernel length away
    from both ends of the array. *)
Theorem X3_constant_flux_unchanged
  (s : Spectrum) (fc b : Q) (n : Z) (c : R) (L : nat) :
  (0 < fc)%Q -> (fc < 0.5)%Q -> (0 < b)%Q -> (b < 0.5)%Q ->
  Smooth.N b = Ok n ->
  flux s = repeat c L ->
  (Z.to_nat n <= L)%nat ->
  exists l,
    Smooth.sflux s fc b = Ok l /\
    forall i, (Z.to_nat (n / 2) <= i)%nat -> (i + Z.to_nat (n / 2) < L)%nat ->
              nth i l 0 = c.
Proof.
  intros Hf0 Hf1 H0 H1 HN Hfl HL.
  destruct (kernel_length_shape b n H0 H1 HN) as (M & HM & Hn).
  assert (Hh : Z.to_nat (n / 2) = M).
  { subst n. rewrite half_of_odd. lia. }
  rewrite Hh.
  exists (np.correlate_same (flux s) (Smooth.filt fc n)). split.
  - unfold Smooth.sflux. rewrite HN. unfold bind.
    rewrite convolve_same_signal_longer, filt_symmetric.
    + reflexivity.
    + rewrite filt_length, Hfl, repeat_length. lia.
  - intros i Hlo Hhi. rewrite Hfl.
    rewrite correlate_same_nth by (rewrite repeat_length; lia).
    rewrite (sum_map_ext _ (fun j => c * nth j (Smooth.filt fc n) 0)).
    + rewrite sum_map_scal, map_nth_seq_id.
      rewrite filt_sum; [ring|].
      subst n. pose proof (windowed_sum_ge_1 fc M Hf0 Hf1 ltac:(lia)). lra.
    + intros j Hj. apply in_seq in Hj. rewrite filt_length in *. f_equal.
      unfold np.padded.
      assert (Hk : (Z.of_nat (Z.to_nat n) / 2 = Z.of_nat M)%Z).
      { subst n. rewrite Z2Nat.id by lia. apply half_of_odd. }
      rewrite Hk.
      destruct (Z.ltb_spec (Z.of_nat i + Z.of_nat j - Z.of_nat M) 0); [lia|].
      apply nth_repeat_lt. subst n. lia.
Qed.

Lemma X3_constant_flux_unchanged_witness :
  exists l,
    Smooth.sflux (mkSpectrum Samples.lag17 (repeat 5 17) None)
                 Smooth.fc Smooth.b = Ok l /\
    forall i, (Z.to_nat (9 / 2) <= i)%nat ->
              (i + Z.to_nat (9 / 2) < 17)%nat ->
              nth i l 0 = 5.
Proof.
  apply (X3_constant_flux_unchanged
           (mkSpectrum Samples.lag17 (repeat 5 17) None)
           Smooth.fc Smooth.b 9 5 17); try reflexivity.
  simpl. lia.
Defined.

(** *** Superposition *)

Lemma superpose_length (alpha beta : R) (a1 a2 : list R) :
  length a1 = length a2 -> length (superpose alpha beta a1 a2) = length a1.
Proof.
  intros H. unfold superpose. rewrite length_map, length_combine. lia.
Qed.

Lemma superpose_nth (alpha beta : R) (a1 a2 : list R) (k : nat) :
  length a1 = length a2 ->
  nth k (superpose alpha beta a1 a2) 0
  = alpha * nth k a1 0 + beta * nth k a2 0.
Proof.
  revert a2 k. induction a1 as [|x a1 IH]; intros [|y a2] k H; simpl in H;
    try discriminate.
  - destruct k; simpl; ring.
  - destruct k as [|k]; [reflexivity|]. simpl. apply IH. lia.
Qed.

Lemma superpose_app (alpha beta : R) (a1 a2 b1 b2 : list R) :
  length a1 = length a2 ->
  superpose alpha beta (a1 ++ b1) (a2 ++ b2)
  = superpose alpha beta a1 a2 ++ superpose alpha beta b1 b2.
Proof.
  revert a2. induction a1 as [|x a1 IH]; intros [|y a2] H; simpl in H;
    try discriminate; [reflexivity|].
  unfold superpose in *. simpl. rewrite IH by lia. reflexivity.
Qed.

Lemma superpose_rev (alpha beta : R) (a1 a2 : list R) :
  length a1 = length a2 ->
  rev (superpose alpha beta a1 a2) = superpose alpha beta (rev a1) (rev a2).
Proof.
  revert a2. induction a1 as [|x a1 IH]; intros [|y a2] H; simpl in H;
    try discriminate; [reflexivity|].
  simpl rev at 2 3. rewrite superpose_app by (rewrite !length_rev; lia).
  rewrite <- IH by lia. reflexivity.
Qed.

Lemma superpose_padded (alpha beta : R) (a1 a2 : list R) (k : Z) :
  length a1 = length a2 ->
  np.padded (superpose alpha beta a1 a2) k
  = alpha * np.padded a1 k + beta * np.padded a2 k.
Proof.
  intros H. unfold np.padded. destruct (k <? 0)%Z; [ring|].
  apply superpose_nth. exact H.
Qed.

Lemma sum_map_superpose {A : Type} (alpha beta : R) (f g : A -> R)
  (l : list A) :
  np.sum (map (fun j => alpha * f j + beta * g j) l)
  = alpha * np.sum (map f l) + beta * np.sum (map g l).
Proof. induction l as [|x l IH]; simpl; [ring | rewrite IH; ring]. Qed.

Lemma correlate_same_superpose_signal (alpha beta : R) (a1 a2 w : list R) :
  length a1 = length a2 ->
  np.correlate_same (superpose alpha beta a1 a2) w
  = superpose alpha beta (np.correlate_same a1 w) (np.correlate_same a2 w).
Proof.
  intros H. apply nth_ext with (d := 0) (d' := 0).
  - rewrite superpose_length; rewrite !correlate_same_length; auto.
    apply superpose_length. exact H.
  - intros i Hi.
    rewrite correlate_same_length, superpose_length in Hi by exact H.
    rewrite superpose_nth by (rewrite !correlate_same_length; exact H).
    rewrite !correlate_same_nth
      by (rewrite ?superpose_length by exact H; lia).
    rewrite <- sum_map_superpose. apply sum_map_ext.
    intros j _. rewrite superpose_padded by exact H. ring.
Qed.

Lemma correlate_same_superpose_kernel (alpha beta : R) (a w1 w2 : list R) :
  length w1 = length w2 ->
  np.correlate_same a (superpose alpha beta w1 w2)
  = superpose alpha beta (np.correlate_same a w1) (np.correlate_same a w2).
Proof.
  intros H. apply nth_ext with (d := 0) (d' := 0).
  - rewrite superpose_length; rewrite !correlate_same_length; auto.
  - intros i Hi. rewrite correlate_same_length in Hi.
    rewrite superpose_nth by (rewrite !correlate_same_length; reflexivity).
    rewrite !correlate_same_nth by exact Hi.
    rewrite superpose_length, <- H by exact H.
    rewrite <- sum_map_superpose. apply sum_map_ext.
    intros j _. rewrite superpose_nth by exact H. ring.
Qed.

(** X17. The convolution is linear in the flux: smoothing
    [alpha * f1 + beta * f2] gives [alpha] times the smoothed [f1] plus
    [beta] times the smoothed [f2], whether the flux is longer or shorter
    than the kernel. *)
Theorem X17_smoothing_linear
  (s1 s2 s : Spectrum) (fc b : Q) (alpha beta : R) (l1 l2 : list R) :
  length (flux s1) = length (flux s2) ->
  flux s = superpose alpha beta (flux s1) (flux s2) ->
  Smooth.sflux s1 fc b = Ok l1 ->
  Smooth.sflux s2 fc b = Ok l2 ->
  Smooth.sflux s fc b = Ok (superpose alpha beta l1 l2).
Proof.
  intros Hl Hs. unfold Smooth.sflux.
  destruct (Smooth.N b) as [n|e]; simpl; [|discriminate].
  rewrite Hs. unfold np.convolve_same.
  rewrite superpose_length by exact Hl. rewrite <- Hl.
  destruct (length (flux s1) <? length (Smooth.filt fc n))%nat.
  - destruct (length (Smooth.filt fc n) =? 0)%nat; [discriminate|].
    rewrite superpose_length, <- Hl by exact Hl.
    destruct (length (flux s1) =? 0)%nat; [discriminate|].
    intros [= <-] [= <-]. f_equal.
    rewrite superpose_rev by exact Hl.
    apply correlate_same_superpose_kernel. rewrite !length_rev. exact Hl.
  - rewrite superpose_length, <- Hl by exact Hl.
    destruct (length (flux s1) =? 0)%nat; [discriminate|].
    destruct (length (Smooth.filt fc n) =? 0)%nat; [discriminate|].
    intros [= <-] [= <-]. f_equal.
    apply correlate_same_superpose_signal. exact Hl.
Qed.

Lemma X17_smoothing_linear_witness :
  Smooth.sflux
    (mkSpectrum Samples.lag17
                (superpose 2 3 Samples.parabola17 Samples.line17) None)
    Smooth.fc Smooth.b
  = Ok (superpose 2 3
          (np.correlate_same Samples.parabola17
                             (rev (Smooth.filt Smooth.fc 9)))
          (np.correlate_same Samples.line17
                             (rev (Smooth.filt Smooth.fc 9)))).
Proof.
  apply (X17_smoothing_linear
           (mkSpectrum Samples.lag17 Samples.parabola17 None)
           (mkSpectrum Samples.lag17 Samples.line17 None)
           (mkSpectrum Samples.lag17
              (superpose 2 3 Samples.parabola17 Samples.line17) None)
           Smooth.fc Smooth.b 2 3); reflexivity.
Defined.

(** *** Impulse response *)

Lemma impulse_padded (k r : nat) (t : Z) :
  np.padded (impulse k r) t = if (t =? Z.of_nat k)%Z then 1 else 0.
Proof.
  unfold np.padded, impulse.
  destruct (Z.ltb_spec t 0) as [Hn|Hp].
  - destruct (Z.eqb_spec t (Z.of_nat k)); [lia | reflexivity].
  - destruct (Z.eqb_spec t (Z.of_nat k)) as [E|E].
    + rewrite E, Nat2Z.id, app_nth2 by (rewrite repeat_length; lia).
      rewrite repeat_length, Nat.sub_diag. reflexivity.
    + destruct (Nat.lt_ge_cases (Z.to_nat t) k) as [Hlt|Hge].
      * rewrite app_nth1 by (rewrite repeat_length; exact Hlt).
        apply nth_repeat.
      * rewrite app_nth2 by (rewrite repeat_length; exact Hge).
        rewrite repeat_length.
        destruct (Z.to_nat t - k)%nat as [|m] eqn:Em; [lia|].
        simpl. apply nth_repeat.
Qed.

Lemma sum_zero (f : nat -> R) (l : list nat) :
  (forall j, In j l -> f j = 0) -> np.sum (map f l) = 0.
Proof.
  induction l as [|x l IH]; intros H; simpl; [reflexivity|].
  rewrite (H x (or_introl eq_refl)), IH; [ring|].
  intros j Hj. apply H. right. exact Hj.
Qed.

Lemma sum_single (f : nat -> R) (n j0 : nat) :
  (j0 < n)%nat ->
  (forall j, (j < n)%nat -> j <> j0 -> f j = 0) ->
  np.sum (map f (seq 0 n)) = f j0.
Proof.
  intros Hj H.
  replace n with (j0 + S (n - j0 - 1))%nat by lia.
  rewrite seq_app, map_app, sum_app. cbn [seq map np.sum fold_right Nat.add].
  rewrite !sum_zero.
  - ring.
  - intros j Hin. apply in_seq in Hin. apply H; lia.
  - intros j Hin. apply in_seq in Hin. apply H; lia.
Qed.

(** X23. The kernel is the impulse response of the smoothing, centred on
    the input sample: a flux that is a unit spike at index [k] is turned
    into the kernel taps laid out so that the centre tap falls on [k]
    (output [i] is tap [i - k + N/2], zero outside the kernel). *)
Theorem X23_impulse_response
  (s : Spectrum) (fc b : Q) (n : Z) (k r : nat) :
  (0 < b)%Q -> (b < 0.5)%Q ->
  Smooth.N b = Ok n ->
  flux s = impulse k r ->
  (Z.to_nat n <= k + 1 + r)%nat ->
  exists l,
    Smooth.sflux s fc b = Ok l /\
    length l = (k + 1 + r)%nat /\
    forall i, (i < k + 1 + r)%nat ->
              nth i l 0
              = np.padded (Smooth.filt fc n)
                          (Z.of_nat i - Z.of_nat k + n / 2).
Proof.
  intros H0 H1 HN Hfl HL.
  destruct (kernel_length_shape b n H0 H1 HN) as (M & HM & Hn).
  assert (Hh : (n / 2 = Z.of_nat M)%Z) by (subst n; apply half_of_odd).
  assert (Hlen : length (flux s) = (k + 1 + r)%nat).
  { rewrite Hfl. unfold impulse. rewrite length_app. simpl.
    rewrite !repeat_length. lia. }
  exists (np.correlate_same (flux s) (rev (Smooth.filt fc n))).
  split; [|split].
  - unfold Smooth.sflux. rewrite HN. unfold bind.
    apply convolve_same_signal_longer. rewrite filt_length. lia.
  - rewrite correlate_same_length. exact Hlen.
  - intros i Hi.
    rewrite correlate_same_nth by lia.
    rewrite length_rev, filt_length, Hfl.
    assert (HN2 : (Z.of_nat (Z.to_nat n) / 2 = Z.of_nat M)%Z).
    { rewrite Z2Nat.id by lia. exact Hh. }
    rewrite HN2, Hh.
    set (F := Smooth.filt fc n).
    assert (HF : length F = (2 * M + 1)%nat).
    { unfold F. rewrite filt_length. lia. }
    replace (Z.to_nat n) with (2 * M + 1)%nat by lia.
    destruct (Z_lt_le_dec (Z.of_nat k - Z.of_nat i + Z.of_nat M) 0)
      as [Hlo|Hlo].
    { rewrite sum_zero.
      - unfold np.padded.
        destruct (Z.ltb_spec (Z.of_nat i - Z.of_nat k + Z.of_nat M) 0);
          [lia|].
        symmetry. apply nth_overflow. lia.
      - intros j Hj. apply in_seq in Hj. rewrite impulse_padded.
        destruct (Z.eqb_spec (Z.of_nat i + Z.of_nat j - Z.of_nat M)
                             (Z.of_nat k));
          [lia | ring]. }
    destruct (Z_lt_le_dec (Z.of_nat k - Z.of_nat i + Z.of_nat M)
                          (Z.of_nat (2 * M + 1))) as [Hhi|Hhi].
    2:{ rewrite sum_zero.
        - unfold np.padded.
          destruct (Z.ltb_spec (Z.of_nat i - Z.of_nat k + Z.of_nat M) 0);
            [reflexivity | lia].
        - intros j Hj. apply in_seq in Hj. rewrite impulse_padded.
          destruct (Z.eqb_spec (Z.of_nat i + Z.of_nat j - Z.of_nat M)
                               (Z.of_nat k));
            [lia | ring]. }
    set (j0 := Z.to_nat (Z.of_nat k - Z.of_nat i + Z.of_nat M)).
    rewrite (sum_single _ (2 * M + 1) j0).
    2:{ unfold j0. lia. }
    2:{ intros j Hj Hne. rewrite impulse_padded.
        destruct (Z.eqb_spec (Z.of_nat i + Z.of_nat j - Z.of_nat M)
                             (Z.of_nat k));
          [unfold j0 in Hne; lia | ring]. }
    rewrite impulse_padded.
    destruct (Z.eqb_spec (Z.of_nat i + Z.of_nat j0 - Z.of_nat M)
                         (Z.of_nat k));
      [|unfold j0 in *; lia].
    rewrite Rmult_1_l, rev_nth by (rewrite HF; unfold j0; lia).
    unfold np.padded.
    destruct (Z.ltb_spec (Z.of_nat i - Z.of_nat k + Z.of_nat M) 0); [lia|].
    f_equal. rewrite HF. unfold j0. lia.
Qed.

Lemma X23_impulse_response_witness :
  exists l,
    Smooth.sflux (mkSpectrum Samples.lag17 (impulse 8 8) None)
                 Smooth.fc Smooth.b = Ok l /\
    length l = (8 + 1 + 8)%nat /\
    forall i, (i < 8 + 1 + 8)%nat ->
              nth i l 0
              = np.padded (Smooth.filt Smooth.fc 9)
                          (Z.of_nat i - Z.of_nat 8 + 9 / 2).
Proof.
  apply (X23_impulse_response
           (mkSpectrum Samples.lag17 (impulse 8 8) None)
           Smooth.fc Smooth.b 9 8 8); try reflexivity.
  simpl. lia.
Defined.

(** *** Non-negative taps *)







(** ** The kernel length as a function of the transition band *)



(** X5. A narrower transition band never gives a shorter kernel: for
    [0 < b1 <= b2] the length for [b2] is at most the length for [b1]. *)
Theorem X5_length_antitone (b1 b2 : Q) (n1 n2 : Z) :
  (0 < b1)%Q -> (b1 <= b2)%Q ->
  Smooth.N b1 = Ok n1 -> Smooth.N b2 = Ok n2 ->
  (n2 <= n1)%Z.
Proof.
  intros H0 Hle H1 H2.
  assert (Hb2 : (0 < b2)%Q) by (eapply Qlt_le_trans; eauto).
  rewrite N_defined in H1 by (intros E; rewrite E in H0; discriminate H0).
  rewrite N_defined in H2 by (intros E; rewrite E in Hb2; discriminate Hb2).
  injection H1 as <-. injection H2 as <-.
  assert (Hq : (4 / b2 <= 4 / b1)%Q).
  { apply Qle_shift_div_l; [exact H0|].
    unfold Qdiv. rewrite <- Qmult_assoc.
    setoid_replace (/ b2 * b1)%Q with (b1 / b2)%Q by (unfold Qdiv; ring).
    assert (b1 / b2 <= 1)%Q.
    { apply Qle_shift_div_r; [exact Hb2|]. rewrite Qmult_1_l. exact Hle. }
    nra. }
  apply Qceiling_resp_le in Hq.
  set (c1 := Qceiling (4 / b1)) in *. set (c2 := Qceiling (4 / b2)) in *.
  pose proof (Z.mod_pos_bound c1 2 ltac:(lia)).
  pose proof (Z.mod_pos_bound c2 2 ltac:(lia)).
  pose proof (Z.div_mod c1 2 ltac:(lia)).
  pose proof (Z.div_mod c2 2 ltac:(lia)).
  destruct (Z.eqb_spec (c1 mod 2) 0), (Z.eqb_spec (c2 mod 2) 0); lia.
Qed.

Lemma X5_length_antitone_witness :
  Smooth.N 0.1%Q = Ok 41%Z /\ Smooth.N 0.49%Q = Ok 9%Z /\ (9 <= 41)%Z.
Proof.
  split; [reflexivity|]. split; [reflexivity|].
  apply (X5_length_antitone 0.1%Q 0.49%Q 41 9); try reflexivity.
  vm_compute. discriminate.
Defined.

(** ** The maximum cell *)

Lemma index_peak_first_maximum (corr : list R) :
  corr <> [] -> exists i, Peak.index_peak corr = Ok i /\ first_maximum corr i.
Proof.
  intros Hne. destruct corr as [|x t]; [contradiction|].
  unfold Peak.index_peak, np.amax, bind, np.where_eq.
  set (m := fold_left Rmax t x).
  destruct (where_eq_from_first (x :: t) m 0%Z (fold_Rmax_attained t x))
    as (k & rest & Hw & Hk & Hn & Hfirst).
  fold m in Hw, Hn, Hfirst. rewrite Hw.
  exists (Z.of_nat k). unfold first_maximum.
  rewrite Z.add_0_l, Nat2Z.id, Hn.
  repeat split; try lia.
  - intros j Hj. apply fold_Rmax_upper. apply nth_In. exact Hj.
  - intros j Hj Hv.
    destruct (Nat.lt_ge_cases j k) as [Hlt|Hge]; [|lia].
    exfalso. exact (Hfirst j Hlt Hv).
Qed.

Lemma first_maximum_unique (corr : list R) (i j : Z) :
  first_maximum corr i -> first_maximum corr j -> i = j.
Proof.
  intros (Hi & Hmi & Hfi) (Hj & Hmj & Hfj).
  assert (E : nth (Z.to_nat i) corr 0 = nth (Z.to_nat j) corr 0).
  { apply Rle_antisym; [apply Hmj | apply Hmi]; lia. }
  pose proof (Hfi (Z.to_nat j) ltac:(lia) (eq_sym E)).
  pose proof (Hfj (Z.to_nat i) ltac:(lia) E).
  lia.
Qed.

Lemma index_peak_of_first_maximum (corr : list R) (i : Z) :
  first_maximum corr i -> Peak.index_peak corr = Ok i.
Proof.
  intros H.
  assert (Hne : corr <> []).
  { destruct H as (Hi & _). intros ->. simpl in Hi. lia. }
  destruct (index_peak_first_maximum corr Hne) as (k & Hk & Hfm).
  rewrite Hk. f_equal. exact (first_maximum_unique corr k i Hfm H).
Qed.

(** X6. On arrays of real numbers the maximum cell fails in one way only:
    it raises exactly when the correlation array is empty, and then the
    error is the [ValueError] of [np.amax]; the indexing [[0][0]] never
    fails. *)
Theorem X6_index_peak_error (corr : list R) (e : exn) :
  Peak.index_peak corr = Raise e <-> corr = [] /\ e = ValueError.
Proof.
  split.
  - intros H. destruct corr as [|x t].
    + simpl in H. injection H as <-. split; reflexivity.
    + destruct (index_peak_first_maximum (x :: t) ltac:(discriminate))
        as (i & Hi & _).
      rewrite Hi in H. discriminate H.
  - intros [-> ->]. reflexivity.
Qed.

(** X7. The index of the maximum does not depend on the normalisation of
    the correlation: multiplying all values by a positive factor and
    adding a constant leaves it unchanged. *)
Theorem X7_index_peak_rescaled (corr : list R) (k c : R) :
  0 < k ->
  Peak.index_peak (map (fun x => k * x + c) corr) = Peak.index_peak corr.
Proof.
  intros Hk. destruct corr as [|x t] eqn:E; [reflexivity|]. rewrite <- E.
  destruct (index_peak_first_maximum corr ltac:(subst; discriminate))
    as (i & Hi & (Hr & Hm & Hf)).
  rewrite Hi. apply index_peak_of_first_maximum.
  unfold first_maximum. rewrite length_map.
  assert (Hnth : forall j, (j < length corr)%nat ->
            nth j (map (fun x => k * x + c) corr) 0 = k * nth j corr 0 + c).
  { intros j Hj.
    rewrite (nth_indep _ 0 (k * 0 + c)) by (rewrite length_map; exact Hj).
    apply (map_nth (fun x => k * x + c)). }
  split; [exact Hr|]. split.
  - intros j Hj. rewrite !Hnth by lia. specialize (Hm j Hj). nra.
  - intros j Hj. rewrite !Hnth by lia. intros Hv. apply (Hf j Hj). nra.
Qed.

Lemma X7_index_peak_rescaled_witness :
  Peak.index_peak (map (fun x => 2 * x + 5) Samples.convex9)
  = Peak.index_peak Samples.convex9.
Proof.
  apply (X7_index_peak_rescaled Samples.convex9 2 5). lra.
Defined.




(** ** The refinement window *)

Lemma full_slice {A : Type} (l : list A) (i : Z) :
  (8 <= i)%Z -> (i + 9 <= Z.of_nat (length l))%Z ->
  py.slice l (i - Peak.n) (i + Peak.n + 1)
  = firstn 17 (skipn (Z.to_nat (i - 8)) l).
Proof.
  intros Hlo Hhi. unfold py.slice, py.adjust, Peak.n.
  replace (i - 8 <? 0)%Z with false by lia.
  replace (i + 8 + 1 <? 0)%Z with false by lia.
  f_equal. lia. f_equal. lia.
Qed.

(** X9. When the maximum is at least 8 samples away from both ends, the
    two windows hold 17 samples each and are aligned and centred on the
    maximum: entry [k] of either window is entry [i - 8 + k] of its array,
    so entry 8 is the maximum itself. *)
Theorem X9_full_window_centred (lag corr : list R) (i : Z) :
  (8 <= i)%Z -> (i + 9 <= Z.of_nat (length lag))%Z ->
  length corr = length lag ->
  length (Peak.peak_lags lag i) = 17%nat /\
  length (Peak.peak_vals corr i) = 17%nat /\
  (forall k, (k < 17)%nat ->
     nth k (Peak.peak_lags lag i) 0 = nth (Z.to_nat (i - 8) + k) lag 0 /\
     nth k (Peak.peak_vals corr i) 0 = nth (Z.to_nat (i - 8) + k) corr 0) /\
  nth 8 (Peak.peak_lags lag i) 0 = nth (Z.to_nat i) lag 0 /\
  nth 8 (Peak.peak_vals corr i) 0 = nth (Z.to_nat i) corr 0.
Proof.
  intros Hlo Hhi Hlen.
  unfold Peak.peak_lags, Peak.peak_vals.
  rewrite !full_slice by lia.
  rewrite !length_firstn, !length_skipn.
  split; [lia|]. split; [lia|].
  assert (Hk : forall k, (k < 17)%nat ->
     nth k (firstn 17 (skipn (Z.to_nat (i - 8)) lag)) 0
     = nth (Z.to_nat (i - 8) + k) lag 0 /\
     nth k (firstn 17 (skipn (Z.to_nat (i - 8)) corr)) 0
     = nth (Z.to_nat (i - 8) + k) corr 0).
  { intros k Hk. rewrite !nth_firstn, !nth_skipn.
    destruct (Nat.ltb_spec k 17); [split; reflexivity | lia]. }
  split; [exact Hk|].
  destruct (Hk 8%nat ltac:(lia)) as [H1 H2]. rewrite H1, H2.
  replace (Z.to_nat (i - 8) + 8)%nat with (Z.to_nat i) by lia.
  split; reflexivity.
Qed.

Lemma X9_full_window_centred_witness :
  length (Peak.peak_lags Samples.lag17 8) = 17%nat /\
  length (Peak.peak_vals Samples.parabola17 8) = 17%nat /\
  (forall k, (k < 17)%nat ->
     nth k (Peak.peak_lags Samples.lag17 8) 0
     = nth (Z.to_nat (8 - 8) + k) Samples.lag17 0 /\
     nth k (Peak.peak_vals Samples.parabola17 8) 0
     = nth (Z.to_nat (8 - 8) + k) Samples.parabola17 0) /\
  nth 8 (Peak.peak_lags Samples.lag17 8) 0
  = nth (Z.to_nat 8) Samples.lag17 0 /\
  nth 8 (Peak.peak_vals Samples.parabola17 8) 0
  = nth (Z.to_nat 8) Samples.parabola17 0.
Proof.
  apply (X9_full_window_centred Samples.lag17 Samples.parabola17 8).
  - lia.
  - simpl. lia.
  - reflexivity.
Defined.

(** X19. For a maximum inside the array the window never holds more than
    17 samples, and it holds exactly 17 precisely when the maximum is at
    least 8 samples away from both ends. *)
Theorem X19_window_size (lag : list R) (i : Z) :
  (0 <= i < Z.of_nat (length lag))%Z ->
  (length (Peak.peak_lags lag i) <= 17)%nat /\
  (length (Peak.peak_lags lag i) = 17%nat <->
   (8 <= i)%Z /\ (i + 9 <= Z.of_nat (length lag))%Z).
Proof.
  intros Hi. unfold Peak.peak_lags, Peak.n. rewrite slice_length.
  unfold py.adjust.
  destruct (Z.ltb_spec (i - 8) 0), (Z.ltb_spec (i + 8 + 1) 0); lia.
Qed.

Lemma X19_window_size_witness :
  (length (Peak.peak_lags Samples.lag9 8) <= 17)%nat /\
  (length (Peak.peak_lags Samples.lag9 8) = 17%nat <->
   (8 <= 8)%Z /\ (8 + 9 <= Z.of_nat (length Samples.lag9))%Z).
Proof.
  apply (X19_window_size Samples.lag9 8). simpl. lia.
Defined.

(** X20. When the array has more than 8 samples and the maximum is at an
    index [i < 8], the wrapped window does not contain the maximum: each
    of its entries comes from index [L - (8 - i) + k], which lies after
    [i]. *)
Theorem X20_wrapped_window_misses_peak (lag : list R) (i : Z) (k : nat) :
  (0 <= i < 8)%Z -> (8 < Z.of_nat (length lag))%Z ->
  (k < length (Peak.peak_lags lag i))%nat ->
  exists j : nat,
    (Z.of_nat j = Z.of_nat (length lag) - (8 - i) + Z.of_nat k)%Z /\
    (i < Z.of_nat j)%Z /\
    nth k (Peak.peak_lags lag i) 0 = nth j lag 0.
Proof.
  intros Hi HL Hk.
  unfold Peak.peak_lags in *. rewrite slice_length in Hk.
  unfold py.slice, py.adjust, Peak.n in *.
  destruct (Z.ltb_spec (i - 8) 0) as [_|H]; [|lia].
  destruct (Z.ltb_spec (i + 8 + 1) 0) as [H|_]; [lia|].
  exists (Z.to_nat (i - 8 + Z.of_nat (length lag)) + k)%nat.
  split; [lia|]. split; [lia|].
  rewrite nth_firstn, nth_skipn.
  destruct (Nat.ltb_spec k (Z.to_nat
     (Z.min (i + 8 + 1) (Z.of_nat (length lag))
      - Z.max (i - 8 + Z.of_nat (length lag)) 0))); [|lia].
  f_equal. lia.
Qed.

Lemma X20_wrapped_window_misses_peak_witness :
  exists j : nat,
    (Z.of_nat j = Z.of_nat (length Samples.lag9) - (8 - 2) + Z.of_nat 0)%Z /\
    (2 < Z.of_nat j)%Z /\
    nth 0 (Peak.peak_lags Samples.lag9 2) 0 = nth j Samples.lag9 0.
Proof.
  apply (X20_wrapped_window_misses_peak Samples.lag9 2 0).
  - lia.
  - simpl. lia.
  - simpl. lia.
Defined.

(** ** The fit on exact data *)

Lemma sampled_skipn (q : poly2) (xs ys : list R) (k : nat) :
  sampled q xs ys -> sampled q (skipn k xs) (skipn k ys).
Proof.
  intros H. revert k. induction H as [|x y xs ys Hxy H IH]; intros [|k];
    simpl; try constructor; auto.
Qed.

Lemma sampled_firstn (q : poly2) (xs ys : list R) (k : nat) :
  sampled q xs ys -> sampled q (firstn k xs) (firstn k ys).
Proof.
  intros H. revert k. induction H as [|x y xs ys Hxy H IH]; intros [|k];
    simpl; try constructor; auto.
  apply IH.
Qed.

Lemma sampled_window (q : poly2) (lag corr : list R) (i : Z) :
  sampled q lag corr ->
  sampled q (Peak.peak_lags lag i) (Peak.peak_vals corr i).
Proof.
  intros H. unfold Peak.peak_lags, Peak.peak_vals, py.slice.
  rewrite <- (sampled_length q lag corr H).
  apply sampled_firstn, sampled_skipn, H.
Qed.

Lemma sampled_nth (q : poly2) (xs ys : list R) (j : nat) :
  sampled q xs ys -> (j < length xs)%nat ->
  nth j ys 0 = np.polyval q (nth j xs 0).
Proof.
  intros H. revert j. induction H as [|x y xs ys Hxy H IH]; intros [|j] Hj;
    simpl in *; try lia; auto.
  apply IH. lia.
Qed.

Lemma sorted_nth_lt (l : list R) (i j : nat) :
  StronglySorted Rlt l -> (i < j)%nat -> (j < length l)%nat ->
  nth i l 0 < nth j l 0.
Proof.
  intros Hs. revert i j. induction Hs as [|x l Hs IH Hall]; intros i j Hij Hj.
  - simpl in Hj. lia.
  - destruct j as [|j]; [lia|]. simpl in Hj. destruct i as [|i].
    + simpl. rewrite Forall_forall in Hall. apply Hall, nth_In. lia.
    + simpl. apply IH; lia.
Qed.

Lemma lag17_sorted : StronglySorted Rlt Samples.lag17.
Proof.
  unfold Samples.lag17.
  repeat (constructor; [|repeat (constructor; [lra|]); constructor]).
  constructor.
Qed.




(** X11. On samples of a downward parabola over a strictly increasing lag
    axis, with the discrete maximum at least 8 samples from both ends, the
    two cells in sequence return a real velocity that lies between the
    midpoints of the maximum and its two neighbours: the refinement moves
    the peak by at most half a lag step. *)
Theorem X11_refined_peak_near_maximum
  (lag corr : list R) (a b c : R) (i : Z) :
  StronglySorted Rlt lag ->
  sampled (a, b, c) lag corr ->
  a < 0 ->
  Peak.index_peak corr = Ok i ->
  (8 <= i)%Z -> (i + 9 <= Z.of_nat (length lag))%Z ->
  exists v,
    Peak.fit_at_maximum lag corr = Ok (Num (RtoC v)) /\
    (nth (Z.to_nat i - 1) lag 0 + nth (Z.to_nat i) lag 0) / 2 <= v /\
    v <= (nth (Z.to_nat i) lag 0 + nth (Z.to_nat i + 1) lag 0) / 2.
Proof.
  intros Hsorted Hs Ha Hi Hlo Hhi.
  pose proof (sampled_length _ _ _ Hs) as Hlen.
  destruct (full_window_three_distinct lag i Hsorted Hlo Hhi) as [_ H3].
  pose proof (polyfit_exact (a, b, c) _ _ H3 (sampled_window _ lag corr i Hs))
    as Hp.
  exists (- b / (2 * a)). split.
  { unfold Peak.fit_at_maximum. rewrite Hi. unfold bind, Peak.v_fit, Peak.p.
    rewrite Hp. unfold bind. rewrite mean_roots_vertex by lra. reflexivity. }
  assert (Hne : corr <> []).
  { intros ->. simpl in Hlen. lia. }
  destruct (index_peak_first_maximum corr Hne) as (i' & Hi' & (_ & Hm & _)).
  rewrite Hi in Hi'. injection Hi' as <-.
  set (k := Z.to_nat i) in *.
  assert (Hk : (8 <= k)%nat /\ (k + 9 <= length lag)%nat) by (unfold k; lia).
  pose proof (Hm (k - 1)%nat ltac:(lia)) as Hl.
  pose proof (Hm (k + 1)%nat ltac:(lia)) as Hr.
  rewrite (sampled_nth _ _ _ (k - 1) Hs), (sampled_nth _ _ _ k Hs) in Hl
    by lia.
  rewrite (sampled_nth _ _ _ (k + 1) Hs), (sampled_nth _ _ _ k Hs) in Hr
    by lia.
  pose proof (sorted_nth_lt lag (k - 1) k Hsorted ltac:(lia) ltac:(lia))
    as Hx1.
  pose proof (sorted_nth_lt lag k (k + 1) Hsorted ltac:(lia) ltac:(lia))
    as Hx2.
  unfold np.polyval in Hl, Hr.
  set (x0 := nth (k - 1) lag 0) in *. set (x1 := nth k lag 0) in *.
  set (x2 := nth (k + 1) lag 0) in *.
  assert (H1 : 0 <= a * (x1 + x0) + b).
  { assert ((x1 - x0) * (a * (x1 + x0) + b) >= 0) by nra. nra. }
  assert (H2 : a * (x2 + x1) + b <= 0).
  { assert ((x2 - x1) * (a * (x2 + x1) + b) <= 0) by nra. nra. }
  assert (Hinv : / a < 0) by (apply Rinv_lt_0_compat; exact Ha).
  assert (Hv : - b / (2 * a) = - b * / a / 2) by (field; lra).
  rewrite Hv.
  assert (Hat : a * / a = 1) by (apply Rinv_r; lra).
  set (t := / a) in *.
  assert (Hb1 : (x1 + x0) <= - b * t).
  { assert ((a * (x1 + x0) + b) * t <= 0) by nra. nra. }
  assert (Hb2 : - b * t <= (x2 + x1)).
  { assert ((a * (x2 + x1) + b) * t >= 0) by nra. nra. }
  split; lra.
Qed.

Lemma parabola17_index_peak : Peak.index_peak Samples.parabola17 = Ok 8%Z.
Proof. unfold Samples.parabola17. eval_index_peak. Qed.

Lemma X11_refined_peak_near_maximum_witness :
  exists v,
    Peak.fit_at_maximum Samples.lag17 Samples.parabola17
    = Ok (Num (RtoC v)) /\
    (nth (Z.to_nat 8 - 1) Samples.lag17 0
     + nth (Z.to_nat 8) Samples.lag17 0) / 2 <= v /\
    v <= (nth (Z.to_nat 8) Samples.lag17 0
          + nth (Z.to_nat 8 + 1) Samples.lag17 0) / 2.
Proof.
  apply (X11_refined_peak_near_maximum
           Samples.lag17 Samples.parabola17 (-1) 16 36 8).
  - exact lag17_sorted.
  - unfold sampled, Samples.lag17, Samples.parabola17, np.polyval.
    repeat (constructor; [lra|]). constructor.
  - lra.
  - exact parabola17_index_peak.
  - lia.
  - simpl. lia.
Defined.

Lemma mean_roots_nan (a b c : R) :
  np.mean (np.roots (a, b, c)) = NaN <-> a = 0 /\ b = 0.
Proof.
  unfold np.roots.
  destruct (Req_dec_T a 0) as [Ea|Ea].
  - destruct (Req_dec_T b 0) as [Eb|Eb].
    + simpl. tauto.
    + destruct (Req_dec_T c 0); simpl; split; try discriminate; tauto.
  - destruct (Req_dec_T c 0).
    + destruct (Req_dec_T b 0); simpl; split; try discriminate; tauto.
    + unfold np.companion_eigvals.
      destruct (Rle_dec 0 _); simpl; split; try discriminate; tauto.
Qed.

(** X18. Once the fit has returned coefficients [(a, b, c)], the refined
    velocity is NaN exactly when both [a] and [b] are zero, that is when
    the fitted polynomial is constant. *)
Theorem X18_velocity_nan (lag corr : list R) (i : Z) (a b c : R) :
  Peak.p lag corr i = Ok (a, b, c) ->
  (Peak.v_fit lag corr i = Ok NaN <-> a = 0 /\ b = 0).
Proof.
  intros Hp. unfold Peak.v_fit. rewrite Hp. unfold bind.
  rewrite <- mean_roots_nan.
  split; [intros [= H]; exact H | intros ->; reflexivity].
Qed.

Lemma X18_velocity_nan_witness :
  Peak.v_fit Samples.lag9 Samples.convex9 8 = Ok NaN <-> 1 = 0 /\ 0 = 0.
Proof.
  apply (X18_velocity_nan Samples.lag9 Samples.convex9 8 1 0 1).
  exact convex9_fit.
Defined.

(** X22. For a fitted polynomial with [a <> 0]: when the discriminant is
    non-negative, [np.roots] returns two real numbers that are zero
    crossings of the polynomial and whose midpoint is [-b/(2a)]; when it
    is negative, it returns a conjugate pair with real part [-b/(2a)] and
    non-zero imaginary parts. *)
Theorem X22_roots_of_fit (a b c : R) :
  a <> 0 ->
  (0 <= b ^ 2 - 4 * a * c ->
   exists r1 r2,
     np.roots (a, b, c) = [RtoC r1; RtoC r2] /\
     np.polyval (a, b, c) r1 = 0 /\ np.polyval (a, b, c) r2 = 0 /\
     (r1 + r2) / 2 = - b / (2 * a)) /\
  (b ^ 2 - 4 * a * c < 0 ->
   exists s,
     0 < s /\
     np.roots (a, b, c) = [(- b / (2 * a), s); (- b / (2 * a), - s)]).
Proof.
  intros Ha. unfold np.roots.
  destruct (Req_dec_T a 0) as [E|_]; [contradiction|].
  assert (Hdisc : (- b / a) ^ 2 - 4 * (c / a)
                  = (b ^ 2 - 4 * a * c) * (/ a) ^ 2) by (field; exact Ha).
  assert (Hsq : 0 < (/ a) ^ 2).
  { assert (Hi : / a <> 0) by (apply Rinv_neq_0_compat; exact Ha).
    assert (0 < / a * / a) by nra. simpl. nra. }
  split.
  - intros Hd. destruct (Req_dec_T c 0) as [->|Hc].
    + destruct (Req_dec_T b 0) as [->|Hb].
      * exists 0, 0. unfold np.polyval. repeat split; try (field; exact Ha).
      * exists (- b / a), 0. unfold np.polyval.
        repeat split; field; exact Ha.
    + unfold np.companion_eigvals.
      destruct (Rle_dec 0 ((- b / a) ^ 2 - 4 * (c / a))) as [Hr|Hn].
      2:{ exfalso. apply Hn. rewrite Hdisc. nra. }
      set (s := sqrt ((- b / a) ^ 2 - 4 * (c / a))).
      assert (Hs : s * s = (- b / a) ^ 2 - 4 * (c / a))
        by (apply sqrt_sqrt; exact Hr).
      exists ((- b / a + s) / 2), ((- b / a - s) / 2).
      split; [reflexivity|]. unfold np.polyval.
      assert (Hc' : c = a * (c / a)) by (field; exact Ha).
      assert (Hb' : b = - a * (- b / a)) by (field; exact Ha).
      set (t := - b / a) in *. set (d := c / a) in *.
      repeat split.
      * rewrite Hc', Hb'. nra.
      * rewrite Hc', Hb'. nra.
      * unfold t. field. exact Ha.
  - intros Hd. destruct (Req_dec_T c 0) as [->|Hc].
    + exfalso. nra.
    + unfold np.companion_eigvals.
      destruct (Rle_dec 0 ((- b / a) ^ 2 - 4 * (c / a))) as [Hr|Hn].
      { exfalso. rewrite Hdisc in Hr. nra. }
      exists (sqrt (- ((- b / a) ^ 2 - 4 * (c / a))) / 2). split.
      * apply Rdiv_lt_0_compat; [|lra]. apply sqrt_lt_R0. lra.
      * replace (- b / a / 2) with (- b / (2 * a)) by (field; exact Ha).
        reflexivity.
Qed.

Lemma X22_roots_of_fit_witness :
  (0 <= (-3) ^ 2 - 4 * 1 * 2 ->
   exists r1 r2,
     np.roots (1, -3, 2) = [RtoC r1; RtoC r2] /\
     np.polyval (1, -3, 2) r1 = 0 /\ np.polyval (1, -3, 2) r2 = 0 /\
     (r1 + r2) / 2 = - -3 / (2 * 1)) /\
  ((-3) ^ 2 - 4 * 1 * 2 < 0 ->
   exists s,
     0 < s /\
     np.roots (1, -3, 2) = [(- -3 / (2 * 1), s); (- -3 / (2 * 1), - s)]).
Proof.
  apply (X22_roots_of_fit 1 (-3) 2). lra.
Defined.

(** ** The observed spectrum *)

(** X12. Building the observed spectrum fails exactly when the flux and
    weight arrays differ in length, and the error is then a ValueError. *)
Theorem X12_obs_error (fl wht : list R) (cd1_1 crval1 : R) (e : exn) :
  Obs.obs fl wht cd1_1 crval1 = Raise e <->
  length fl <> length wht /\ e = ValueError.
Proof.
  split.
  - intros H. destruct (Nat.eq_dec (length fl) (length wht)) as [E|E].
    + destruct (obs_defined fl wht cd1_1 crval1 E) as [s Hs].
      rewrite Hs in H. discriminate H.
    + split; [exact E|]. unfold Obs.obs, Obs.dataspec in H.
      destruct (Nat.eqb_spec (length fl) (length wht)); [contradiction|].
      simpl in H. congruence.
  - intros [Hne ->]. unfold Obs.obs, Obs.dataspec.
    destruct (Nat.eqb_spec (length fl) (length wht)); [contradiction|].
    reflexivity.
Qed.

Lemma rows_aligned (wv fl wt un : list R) (r : Obs.row) :
  In r (Obs.rows wv fl wt un) ->
  exists j, (j < length fl)%nat /\
            Obs.col_wavelength r = nth j wv 0 /\
            Obs.col_flux r = nth j fl 0 /\
            Obs.col_weight r = nth j wt 0 /\
            Obs.col_uncertainty r = nth j un 0.
Proof.
  revert fl wt un.
  induction wv as [|x wv IH]; intros [|f fl] [|g wt] [|u un] Hin;
    simpl in Hin; try contradiction.
  destruct Hin as [<-|Hin].
  - exists 0%nat. simpl. repeat split; lia.
  - destruct (IH fl wt un Hin) as (j & Hj & H1 & H2 & H3 & H4).
    exists (S j). simpl. repeat split; auto. lia.
Qed.

Lemma wave_nth (fl : list R) (cd1_1 crval1 : R) (j : nat) :
  (j < length fl)%nat ->
  nth j (Obs.wave fl cd1_1 crval1) 0 = INR j * cd1_1 + crval1.
Proof.
  intros Hj. unfold Obs.wave, np.arange. rewrite Nat2Z.id, map_map.
  rewrite (nth_indep _ 0 (IZR (Z.of_nat 0) * cd1_1 + crval1))
    by (rewrite length_map, length_seq; exact Hj).
  rewrite (map_nth (fun i => IZR (Z.of_nat i) * cd1_1 + crval1)).
  rewrite seq_nth by exact Hj. rewrite INR_IZR_INZ. reflexivity.
Qed.

Lemma unc_nth (wht : list R) (j : nat) :
  (j < length wht)%nat -> nth j (Obs.unc wht) 0 = 1 / sqrt (nth j wht 0).
Proof.
  intros Hj. unfold Obs.unc.
  rewrite (nth_indep _ 0 (1 / sqrt 0)) by (rewrite length_map; exact Hj).
  apply (map_nth (fun x => 1 / sqrt x)).
Qed.

Lemma nth_columns {A : Type} (g1 g2 g3 : A -> R) (l : list A) (k : nat) :
  (k < length l)%nat ->
  exists r, In r l /\ nth k (map g1 l) 0 = g1 r /\
            nth k (map g2 l) 0 = g2 r /\ nth k (map g3 l) 0 = g3 r.
Proof.
  revert k. induction l as [|x l IH]; intros k Hk; simpl in Hk; [lia|].
  destruct k as [|k].
  - exists x. repeat split. left. reflexivity.
  - destruct (IH k ltac:(lia)) as (r & Hr & E).
    exists r. split; [right; exact Hr | exact E].
Qed.

Lemma obs3_built : Obs.obs [1; 2; 3] [1; 0; 4] 0.5 3000 = Ok Samples.obs3.
Proof.
  unfold Obs.obs, Obs.dataspec, Obs.dataspec_sub. simpl.
  destruct (Rlt_dec 0 1) as [_|H]; [|exfalso; lra].
  destruct (Rlt_dec 0 0) as [H|_]; [exfalso; lra|].
  destruct (Rlt_dec 0 4) as [_|H]; [|exfalso; lra].
  reflexivity.
Qed.

(** X13. Every sample of the observed spectrum comes from one pixel [j]
    of the input with a positive weight: its wavelength is
    [j * cd1_1 + crval1], its flux is the input flux at [j], and its
    uncertainty is [1 / sqrt (wht[j])], which is positive.  The three
    columns stay aligned through the row filter. *)
Theorem X13_obs_samples_aligned
  (fl wht : list R) (cd1_1 crval1 : R) (s : Spectrum) (u : list R)
  (k : nat) :
  Obs.obs fl wht cd1_1 crval1 = Ok s ->
  uncertainty s = Some u ->
  (k < length (flux s))%nat ->
  exists j : nat,
    (j < length fl)%nat /\
    0 < nth j wht 0 /\
    nth k (wavelength s) 0 = INR j * cd1_1 + crval1 /\
    nth k (flux s) 0 = nth j fl 0 /\
    nth k u 0 = 1 / sqrt (nth j wht 0) /\
    0 < nth k u 0.
Proof.
  intros Hs Hu Hk.
  destruct (obs_columns _ _ _ _ _ Hs) as [Hl ->].
  cbn [wavelength flux uncertainty] in *. injection Hu as <-.
  set (t := Obs.rows (Obs.wave fl cd1_1 crval1) fl wht (Obs.unc wht)) in *.
  rewrite length_map in Hk.
  destruct (nth_columns Obs.col_wavelength Obs.col_flux Obs.col_uncertainty
              (Obs.dataspec_sub t) k Hk) as (r & Hr & -> & -> & ->).
  apply dataspec_sub_weights in Hr. destruct Hr as [Hin Hpos].
  destruct (rows_aligned _ _ _ _ r Hin) as (j & Hj & H1 & H2 & H3 & H4).
  exists j. rewrite H1, H2, H4, wave_nth, unc_nth by lia.
  rewrite H3 in Hpos.
  repeat split; auto.
  apply Rdiv_lt_0_compat; [lra | apply sqrt_lt_R0; exact Hpos].
Qed.

Lemma X13_obs_samples_aligned_witness :
  exists j : nat,
    (j < length [1; 2; 3])%nat /\
    0 < nth j [1; 0; 4] 0 /\
    nth 1 (wavelength Samples.obs3) 0 = INR j * 0.5 + 3000 /\
    nth 1 (flux Samples.obs3) 0 = nth j [1; 2; 3] 0 /\
    nth 1 [1 / sqrt 1; 1 / sqrt 4] 0 = 1 / sqrt (nth j [1; 0; 4] 0) /\
    0 < nth 1 [1 / sqrt 1; 1 / sqrt 4] 0.
Proof.
  apply (X13_obs_samples_aligned
           [1; 2; 3] [1; 0; 4] 0.5 3000 Samples.obs3
           [1 / sqrt 1; 1 / sqrt 4] 1).
  - exact obs3_built.
  - reflexivity.
  - simpl. lia.
Defined.

(** X14. The observed spectrum has as many wavelengths as fluxes, never
    more samples than the input has pixels, and exactly as many when and
    only when every weight is positive. *)
Theorem X14_obs_sample_count
  (fl wht : list R) (cd1_1 crval1 : R) (s : Spectrum) :
  Obs.obs fl wht cd1_1 crval1 = Ok s ->
  length (wavelength s) = length (flux s) /\
  (length (flux s) <= length fl)%nat /\
  (length (flux s) = length fl <-> Forall (fun g => 0 < g) wht).
Proof.
  intros Hs. destruct (obs_columns _ _ _ _ _ Hs) as [Hl ->].
  cbn [wavelength flux]. rewrite !length_map.
  set (t := Obs.rows (Obs.wave fl cd1_1 crval1) fl wht (Obs.unc wht)).
  assert (Hcols : map Obs.col_weight t = wht /\ length t = length fl).
  { destruct (rows_columns (Obs.wave fl cd1_1 crval1) fl wht (Obs.unc wht))
      as (_ & Hf & Hw & _).
    - apply wave_length.
    - exact Hl.
    - unfold Obs.unc. rewrite length_map. reflexivity.
    - split; [exact Hw|].
      transitivity (length (map Obs.col_flux t));
        [symmetry; apply length_map | fold t in Hf; rewrite Hf; reflexivity]. }
  destruct Hcols as [Hw Hlt]. rewrite <- Hlt.
  split; [reflexivity|]. split; [apply filter_length_le|].
  unfold Obs.dataspec_sub. split.
  - intros E. apply filter_length_forallb in E.
    rewrite forallb_forall in E. rewrite <- Hw.
    apply Forall_forall. intros g Hg. apply in_map_iff in Hg.
    destruct Hg as (r & <- & Hr). specialize (E r Hr).
    destruct (Rlt_dec 0 (Obs.col_weight r)); [assumption | discriminate].
  - intros Hall. rewrite forallb_filter_id; [reflexivity|].
    apply forallb_forall. intros r Hr.
    rewrite <- Hw in Hall. rewrite Forall_forall in Hall.
    specialize (Hall (Obs.col_weight r) (in_map _ _ _ Hr)).
    destruct (Rlt_dec 0 (Obs.col_weight r)); [reflexivity | contradiction].
Qed.

Lemma X14_obs_sample_count_witness :
  length (wavelength Samples.obs3) = length (flux Samples.obs3) /\
  (length (flux Samples.obs3) <= length [1; 2; 3])%nat /\
  (length (flux Samples.obs3) = length [1; 2; 3]
   <-> Forall (fun g => 0 < g) [1; 0; 4]).
Proof.
  apply (X14_obs_sample_count [1; 2; 3] [1; 0; 4] 0.5 3000 Samples.obs3).
  exact obs3_built.
Defined.

(** ** Continuum subtraction and the template *)

Lemma subtract_twice (fl wl : list R) (m1 m2 : R -> R) :
  map (fun fx => fst fx - m2 (snd fx))
      (combine (map (fun fx => fst fx - m1 (snd fx)) (combine fl wl)) wl)
  = map (fun fx => fst fx - (m1 (snd fx) + m2 (snd fx))) (combine fl wl).
Proof.
  revert wl. induction fl as [|f fl IH]; intros [|x wl]; simpl; auto.
  f_equal; [ring | apply IH].
Qed.

Lemma subtract_zero (fl wl : list R) :
  length wl = length fl ->
  map (fun fx => fst fx - 0) (combine fl wl) = fl.
Proof.
  revert wl. induction fl as [|f fl IH]; intros [|x wl] H; simpl in *;
    try discriminate; auto.
  f_equal; [ring | apply IH; lia].
Qed.

Lemma subtract_matching (fl wl : list R) (m : R -> R) :
  Forall2 (fun f x => f = m x) fl wl ->
  map (fun fx => fst fx - m (snd fx)) (combine fl wl)
  = repeat 0 (length fl).
Proof.
  induction 1 as [|f x fl wl E _ IH]; simpl; [reflexivity|].
  rewrite IH, E. f_equal. ring.
Qed.

(** X15. On a spectrum whose axes have equal length, subtracting one
    continuum model and then another equals subtracting their sum;
    subtracting a model and then its negative gives the spectrum back;
    and a model that matches the flux at every wavelength leaves a flux
    of zeros. *)
Theorem X15_continuum_subtraction_composes
  (s : Spectrum) (m1 m2 : R -> R) :
  length (wavelength s) = length (flux s) ->
  Continuum.p_obs (Continuum.p_obs s m1) m2
  = Continuum.p_obs s (fun x => m1 x + m2 x) /\
  Continuum.p_obs (Continuum.p_obs s m1) (fun x => - m1 x) = s /\
  (Forall2 (fun f x => f = m1 x) (flux s) (wavelength s) ->
   flux (Continuum.p_obs s m1) = repeat 0 (length (flux s))).
Proof.
  intros Hl.
  assert (Hc : forall m, Continuum.p_obs (Continuum.p_obs s m1) m
                         = Continuum.p_obs s (fun x => m1 x + m x)).
  { intros m. unfold Continuum.p_obs. cbn [wavelength flux uncertainty].
    rewrite subtract_twice. reflexivity. }
  split; [exact (Hc m2)|]. split.
  - rewrite Hc. unfold Continuum.p_obs.
    rewrite (map_ext _ (fun fx : R * R => fst fx - 0))
      by (intros; f_equal; ring).
    rewrite subtract_zero by exact Hl.
    destruct s; reflexivity.
  - intros Hm. unfold Continuum.p_obs. cbn [flux].
    apply subtract_matching. exact Hm.
Qed.

Lemma X15_continuum_subtraction_composes_witness :
  Continuum.p_obs (Continuum.p_obs Samples.two_samples (fun _ => 1))
                  (fun x => 2 * x)
  = Continuum.p_obs Samples.two_samples (fun x => 1 + 2 * x) /\
  Continuum.p_obs (Continuum.p_obs Samples.two_samples (fun _ => 1))
                  (fun _ => - 1)
  = Samples.two_samples /\
  (Forall2 (fun f _ => f = 1) (flux Samples.two_samples)
           (wavelength Samples.two_samples) ->
   flux (Continuum.p_obs Samples.two_samples (fun _ => 1))
   = repeat 0 (length (flux Samples.two_samples))).
Proof.
  apply (X15_continuum_subtraction_composes
           Samples.two_samples (fun _ => 1) (fun x => 2 * x)).
  reflexivity.
Defined.

Lemma template_z_ok (s : Spectrum) (z : R) :
  length (wavelength s) = length (flux s) ->
  Obs.template_z s z
  = Ok (mkSpectrum (map (fun x => x * (1 + z)) (wavelength s)) (flux s) None).
Proof.
  intros H. unfold Obs.template_z. apply Spectrum1D_ok.
  - rewrite length_map. exact H.
  - discriminate.
Qed.

(** X16. For template columns of equal length, the template cell and the
    redshifting cell succeed; redshifting by [z1] and then by [z2] gives
    the same spectrum as redshifting once by [(1+z1)(1+z2) - 1];
    redshifting by 0 returns the template; the flux stays the second
    column times 2e-5 and the wavelengths are the first column times
    [(1+z1)(1+z2)]. *)
Theorem X16_redshifts_compose (col1 col2 : list R) (z1 z2 : R) :
  length col1 = length col2 ->
  exists t t1 t2,
    Template.template col1 col2 = Ok t /\
    Obs.template_z t z1 = Ok t1 /\
    Obs.template_z t1 z2 = Ok t2 /\
    Obs.template_z t ((1 + z1) * (1 + z2) - 1) = Ok t2 /\
    Obs.template_z t 0 = Ok t /\
    flux t2 = map (fun f => f * 2e-5) col2 /\
    wavelength t2 = map (fun x => x * ((1 + z1) * (1 + z2))) col1.
Proof.
  intros Hl.
  set (fl := map (fun f => f * Template.factor) col2).
  assert (Hfl : length col1 = length fl)
    by (unfold fl; rewrite length_map; exact Hl).
  exists (mkSpectrum col1 fl None),
         (mkSpectrum (map (fun x => x * (1 + z1)) col1) fl None),
         (mkSpectrum (map (fun x => x * ((1 + z1) * (1 + z2))) col1) fl None).
  split; [|split; [|split; [|split; [|split; [|split]]]]].
  - unfold Template.template. apply Spectrum1D_ok; [exact Hfl | discriminate].
  - rewrite template_z_ok by exact Hfl. reflexivity.
  - rewrite template_z_ok by (cbn; rewrite length_map; exact Hfl).
    cbn [wavelength flux]. rewrite map_map. do 2 f_equal.
    apply map_ext. intros x. ring.
  - rewrite template_z_ok by exact Hfl. cbn [wavelength flux].
    do 2 f_equal. apply map_ext. intros x. ring.
  - rewrite template_z_ok by exact Hfl. cbn [wavelength flux].
    do 2 f_equal. rewrite <- (map_id col1) at 2.
    apply map_ext. intros x. ring.
  - reflexivity.
  - reflexivity.
Qed.

Lemma X16_redshifts_compose_witness :
  exists t t1 t2,
    Template.template [4000; 5000] [3; 7] = Ok t /\
    Obs.template_z t 1 = Ok t1 /\
    Obs.template_z t1 2 = Ok t2 /\
    Obs.template_z t ((1 + 1) * (1 + 2) - 1) = Ok t2 /\
    Obs.template_z t 0 = Ok t /\
    flux t2 = map (fun f => f * 2e-5) [3; 7] /\
    wavelength t2 = map (fun x => x * ((1 + 1) * (1 + 2))) [4000; 5000].
Proof.
  apply (X16_redshifts_compose [4000; 5000] [3; 7] 1 2). reflexivity.
Defined.
